(** * Operator kernels of the nnabla C runtime: ReLU, scalar arithmetic,
      convolution dispatch and sum-pooling allocation

    A shallow embedding of the operator entry points
    [allocate_relu_local_context], [exec_relu], [calc_scalar],
    [exec_convolution] and [allocate_sum_pooling_local_context], over an
    explicit memory made of typed heaps, together with the properties of
    the allocate / exec contract they are expected to satisfy. *)

From Stdlib Require Import ZArith Lia.
From Stdlib Require Import Floats.SpecFloat.
From stdpp Require Import base option list gmap fin_maps.

Local Open Scope Z_scope.

(** ** Numeric values

    A C [float] is an IEEE-754 binary32 datum.  The kernels below only copy
    floats and compare them with [0.0f], so the format-independent
    [spec_float] of the standard library is used as it is: signed zeros,
    infinities, NaN and finite numbers [(-1)^s * m * 2^e]. *)

Definition float : Type := spec_float.

(** The literal [0.0f]. *)
Definition zero_f : float := S754_zero false.

(** The C comparison [x > y] on floats (false as soon as one side is NaN). *)
Definition float_gt (x y : float) : bool := SFltb y x.

(** The C comparison [x == y] on floats. *)
Definition float_eq (x y : float) : bool := SFeqb x y.

(** Binary32 data: 24 bits of precision, maximal exponent 128. *)
Definition is_binary32 (x : float) : bool := valid_binary 24 128 x.

(** ** Status codes *)

(** Modelled from the spec: the enumeration [rt_function_error_t] is declared
    in [nnablart/functions.h], which is not part of the sources at hand; its
    members are the status codes the kernels return. *)
Inductive rt_function_error_t : Set :=
  | RT_FUNCTION_ERROR_NOERROR
  | RT_FUNCTION_ERROR_INVALID_NUM_OF_INPUTS
  | RT_FUNCTION_ERROR_INVALID_NUM_OF_OUTPUTS
  | RT_FUNCTION_ERROR_INVALID_SHAPE
  | RT_FUNCTION_ERROR_MALLOC.

(** ** Variables and function records *)

(** Addresses are integers; [NULL] is address 0.  Float buffers are
    addressed in units of one [float], so that [p[i]] lives at [p + i]. *)
Definition NULL : Z := 0.

(** [rt_variable_t]: the shape (the [size] entries of [shape.data]) and the
    [data] pointer.  The element type, fixed-point position and coefficient
    fields are not read by the kernels modelled here. *)
Record rt_variable_t : Type := {
  shape : list Z;
  data : Z
}.

(** Modelled from the spec: the [rt_function_t] the kernels receive is the one
    of [nnablart/functions.h] (absent from the sources); it carries the two
    variable arrays with their counts and the opaque [local_context] pointer.
    The arrays of variable pointers are embedded as lists of variables: no
    kernel writes to a variable. *)
Record rt_function_t : Type := {
  num_of_inputs : Z;
  inputs : list rt_variable_t;
  num_of_outputs : Z;
  outputs : list rt_variable_t;
  local_context : Z
}.

(** [f->local_context = p]. *)
Definition set_local_context (p : Z) (f : rt_function_t) : rt_function_t :=
  {| num_of_inputs := num_of_inputs f;
     inputs := inputs f;
     num_of_outputs := num_of_outputs f;
     outputs := outputs f;
     local_context := p |}.

(** A C [int] is a 32-bit two's complement integer, kept as the [Z] it
    denotes; [to_int] is the reduction of an exact result to that range,
    which is what [int] arithmetic leaves when a product does not fit. *)
Definition int_range (z : Z) : Prop := -2147483648 ≤ z < 2147483648.

Definition to_int (z : Z) : Z := (z + 2147483648) mod 4294967296 - 2147483648.

(** The exact product of the dimensions of a shape, 1 for the empty
    shape. *)
Definition shape_product (s : list Z) : Z := foldr Z.mul 1 s.

(** Modelled from the spec: [calc_shape_size] lives in the utilities layer
    ([shape.h]), absent from the sources.  It returns the product of the
    dimensions of a shape, the empty shape having size 1; its callers
    receive the result in an [int], so the product is the [int] one. *)
Definition calc_shape_size (s : list Z) : Z := to_int (shape_product s).

(** ** Memory *)

(** [relu_private_t].  The two sizes are [int] fields: what allocation
    stores in them is in [int_range]. *)
Record relu_private_t : Type := {
  input : Z;
  input_size : Z;
  output : Z;
  output_size : Z
}.

(** The memory the ReLU and scalar kernels act on: the float cells and the
    [relu_private_t] objects obtained from [malloc], each heap keyed by
    address.  An address outside a heap is not allocated; reading or
    writing it is undefined behaviour, which the operations below report as
    [None]. *)
Record state : Type := {
  floats : gmap Z float;
  relu_privates : gmap Z relu_private_t
}.

Definition set_floats (m : gmap Z float) (st : state) : state :=
  {| floats := m; relu_privates := relu_privates st |}.

Definition set_relu_privates (h : gmap Z relu_private_t) (st : state) : state :=
  {| floats := floats st; relu_privates := h |}.

(** [p[0] = v] for a float pointer [p]: defined on allocated cells only. *)
Definition store_float (a : Z) (v : float) (m : gmap Z float) : option (gmap Z float) :=
  match m !! a with
  | Some _ => Some (<[a := v]> m)
  | None => None
  end.

(** [for (i = i0; ...; i++) body] with [k] iterations left. *)
Fixpoint for_upto {St : Type} (k : nat) (i : Z) (body : Z → St → option St) (s : St)
  : option St :=
  match k with
  | O => Some s
  | S k' => s' ← body i s; for_upto k' (i + 1) body s'
  end.

(** [for (i = 0; i < n; i++) body]: [n] iterations, none when [n <= 0]. *)
Definition for_loop {St : Type} (n : Z) (body : Z → St → option St) (s : St) : option St :=
  for_upto (Z.to_nat n) 0 body s.

(** ** ReLU *)

(** [(x > 0.0f) ? x : 0.0f]. *)
Definition relu (x : float) : float :=
  if float_gt x zero_f then x else zero_f.

(** [allocate_relu_local_context].  [malloc_ret] is the pointer returned by
    [malloc(sizeof(relu_private_t))], [NULL] when the allocation fails.  The
    four fields of the new object are all written before the function
    returns, so the object enters the heap once, completely filled. *)
Definition allocate_relu_local_context (malloc_ret : Z) (f : rt_function_t) (st : state)
  : option (rt_function_error_t * rt_function_t * state) :=
  if decide (num_of_inputs f ≠ 1) then
    Some (RT_FUNCTION_ERROR_INVALID_NUM_OF_INPUTS, f, st)
  else if decide (num_of_outputs f ≠ 1) then
    Some (RT_FUNCTION_ERROR_INVALID_NUM_OF_OUTPUTS, f, st)
  else
    let private := malloc_ret in
    if decide (private = 0) then
      Some (RT_FUNCTION_ERROR_MALLOC, f, st)
    else
      let f' := set_local_context private f in
      x ← inputs f' !! 0%nat;
      y ← outputs f' !! 0%nat;
      let p := {| input := data x;
                  input_size := calc_shape_size (shape x);
                  output := data y;
                  output_size := calc_shape_size (shape y) |} in
      let st' := set_relu_privates (<[private := p]> (relu_privates st)) st in
      if decide (input_size p ≠ output_size p) then
        Some (RT_FUNCTION_ERROR_INVALID_SHAPE, f', st')
      else
        Some (RT_FUNCTION_ERROR_NOERROR, f', st').

(** The body of the loop of [exec_relu]. *)
Definition exec_relu_body (private : relu_private_t) (i : Z) (m : gmap Z float)
  : option (gmap Z float) :=
  x ← m !! (input private + i);
  store_float (output private + i) (relu x) m.

(** [exec_relu]. *)
Definition exec_relu (f : rt_function_t) (st : state)
  : option (rt_function_error_t * rt_function_t * state) :=
  private ← relu_privates st !! local_context f;
  m ← for_loop (output_size private) (exec_relu_body private) (floats st);
  Some (RT_FUNCTION_ERROR_NOERROR, f, set_floats m st).

(** [free(p)] on a heap of objects obtained from [malloc]: nothing happens
    for [NULL], the object at [p] is released otherwise, and freeing an
    address that holds no object is undefined. *)
Definition free_block {A : Type} (p : Z) (h : gmap Z A) : option (gmap Z A) :=
  if decide (p = 0) then Some h
  else match h !! p with
       | Some _ => Some (delete p h)
       | None => None
       end.

(** [free_relu_local_context]: the pointer in the record is left as it
    is. *)
Definition free_relu_local_context (f : rt_function_t) (st : state)
  : option (rt_function_error_t * rt_function_t * state) :=
  h ← free_block (local_context f) (relu_privates st);
  Some (RT_FUNCTION_ERROR_NOERROR, f, set_relu_privates h st).

(** ** Scalar arithmetic *)

(** The body of the loop of [calc_scalar]. *)
Definition calc_scalar_body (input output : Z) (value : float)
    (calc_func : float → float → float) (i : Z) (m : gmap Z float)
  : option (gmap Z float) :=
  x ← m !! (input + i);
  store_float (output + i) (calc_func x value) m.

(** [calc_scalar]: a [void] function, so only the memory is returned.
    [out_size] is an [int], the one [calc_shape_size] returns. *)
Definition calc_scalar (f : rt_function_t) (value : float)
    (calc_func : float → float → float) (st : state) : option state :=
  y ← outputs f !! 0%nat;
  let out_size := calc_shape_size (shape y) in
  x ← inputs f !! 0%nat;
  let input := data x in
  let output := data y in
  m ← for_loop out_size (calc_scalar_body input output value calc_func) (floats st);
  Some (set_floats m st).

(** ** Convolution *)

Module Convolution.

(** Slots of the convolution operands in the [inputs] and [outputs]
    arrays. *)
Definition X : Z := 0.
Definition WEIGHT : Z := 1.
Definition BIAS : Z := 2.
Definition Y0 : Z := 0.
Definition ALPHA : Z := -1.

(** Modelled from the spec: [convolution_private_t] and
    [convolution_local_context_t] are declared in [convolution_internal.h],
    absent from the sources.  Of the private context only the kernel
    pointer [exec] is used by [exec_convolution], of the local context only
    the [private] pointer.  A function pointer is the address of the code
    it designates. *)
Record convolution_private_t : Type := {
  exec : Z
}.

Record convolution_local_context_t : Type := {
  private : Z
}.

(** The memory seen by the convolution entry points.  [indirect_calls] is
    a ghost record of the addresses called through a function pointer,
    most recent first. *)
Record state : Type := {
  floats : gmap Z float;
  contexts : gmap Z convolution_local_context_t;
  privates : gmap Z convolution_private_t;
  indirect_calls : list Z
}.

(** What any operator entry point is: a transformer of the record and the
    memory that returns a status, or has no defined behaviour. *)
Definition entry_point : Type :=
  rt_function_t → state → option (rt_function_error_t * rt_function_t * state).

Definition record_call (a : Z) (st : state) : state :=
  {| floats := floats st;
     contexts := contexts st;
     privates := privates st;
     indirect_calls := a :: indirect_calls st |}.

(** The call [fp(f)] through the function pointer [fp]; it is undefined
    when [fp] designates no function. *)
Definition call_indirect (code : Z → option entry_point) (fp : Z) : entry_point :=
  λ f st, k ← code fp; k f (record_call fp st).

(** [allocate_convolution_local_context]: the shared helper
    [allocate_convolution_local_context_common] is absent from the sources
    and is a parameter. *)
Definition allocate_convolution_local_context
    (allocate_convolution_local_context_common :
       rt_function_t → Z → Z → Z → Z → Z → state →
       option (rt_function_error_t * rt_function_t * state)) : entry_point :=
  λ f st, allocate_convolution_local_context_common f X WEIGHT BIAS ALPHA Y0 st.

(** [exec_convolution]; [code] maps the address of each kernel to the
    kernel. *)
Definition exec_convolution (code : Z → option entry_point) : entry_point :=
  λ f st,
    context ← contexts st !! local_context f;
    p ← privates st !! private context;
    call_indirect code (exec p) f st.

(** The record is ready with kernel pointer [k]: its local context leads
    to a private context whose [exec] field is [k]. *)
Definition ready (f : rt_function_t) (st : state) (k : Z) : Prop :=
  ∃ context p,
    contexts st !! local_context f = Some context ∧
    privates st !! private context = Some p ∧
    exec p = k.

End Convolution.

(** ** Sum pooling *)

Module SumPooling.

(** Modelled from the spec: [sum_pooling_local_context_t] is declared in
    [nnablart/functions.h], absent from the sources; it carries the
    configuration of the operator (as [sum_pooling_config_t] of
    [runtime.h] does) and the [private] pointer. *)
Record sum_pooling_local_context_t : Type := {
  kernel : list Z;
  stride : list Z;
  ignore_border : Z;
  pad : list Z;
  private : Z
}.

Definition set_private (p : Z) (c : sum_pooling_local_context_t)
  : sum_pooling_local_context_t :=
  {| kernel := kernel c;
     stride := stride c;
     ignore_border := ignore_border c;
     pad := pad c;
     private := p |}.

(** The memory seen by the pooling entry points; [pooling_private_t] is
    declared in the absent [pooling.h] and stays abstract.  A block of the
    heap of private objects holds [None] as long as its contents are
    indeterminate. *)
Record state {pooling_private_t : Type} : Type := {
  contexts : gmap Z sum_pooling_local_context_t;
  privates : gmap Z (option pooling_private_t)
}.
Arguments state : clear implicits.

Definition set_contexts {P : Type} (h : gmap Z sum_pooling_local_context_t)
    (st : state P) : state P :=
  {| contexts := h; privates := privates st |}.

(** The type of the shared helper [allocate_pooling(f, context, private)],
    absent from the sources. *)
Definition allocate_pooling_t (P : Type) : Type :=
  rt_function_t → Z → Z → state P →
  option (rt_function_error_t * rt_function_t * state P).

(** The effect of [malloc(sizeof(pooling_private_t))] returning
    [malloc_ret]: nothing when the allocation fails, a new block with
    indeterminate contents otherwise. *)
Definition malloc_block {P : Type} (malloc_ret : Z) (st : state P) : state P :=
  if decide (malloc_ret = 0) then st
  else {| contexts := contexts st;
          privates := <[malloc_ret := None]> (privates st) |}.

(** [allocate_sum_pooling_local_context], with the helper as a parameter.
    [malloc_ret] is the pointer returned by
    [malloc(sizeof(pooling_private_t))], [NULL] when the allocation
    fails. *)
Definition allocate_sum_pooling_local_context {P : Type}
    (allocate_pooling : allocate_pooling_t P)
    (malloc_ret : Z) (f : rt_function_t) (st : state P)
  : option (rt_function_error_t * rt_function_t * state P) :=
  let context := local_context f in
  let private := malloc_ret in
  '(ret, f1, st1) ← allocate_pooling f context private (malloc_block private st);
  c ← contexts st1 !! local_context f1;
  Some (ret, f1,
        set_contexts (<[local_context f1 := set_private private c]> (contexts st1)) st1).

(** Modelled from the spec: [allocate_pooling], absent from the sources,
    after the allocate contract of the spec.  A failed memory allocation
    fails with [RT_FUNCTION_ERROR_MALLOC] and stores nothing; the numbers of
    inputs and outputs are validated against the arity of pooling, one and
    one; a shape mismatch fails with [RT_FUNCTION_ERROR_INVALID_SHAPE]; on
    success the derived quantities are cached in the private object.  What
    makes the shapes compatible and what is derived are not described:
    they are the parameters [shape_ok] and [derive]. *)
Definition allocate_pooling_spec {P : Type}
    (shape_ok : rt_function_t → sum_pooling_local_context_t → bool)
    (derive : rt_function_t → sum_pooling_local_context_t → P)
  : allocate_pooling_t P :=
  λ f context private st,
    if decide (private = 0) then
      Some (RT_FUNCTION_ERROR_MALLOC, f, st)
    else if decide (num_of_inputs f ≠ 1) then
      Some (RT_FUNCTION_ERROR_INVALID_NUM_OF_INPUTS, f, st)
    else if decide (num_of_outputs f ≠ 1) then
      Some (RT_FUNCTION_ERROR_INVALID_NUM_OF_OUTPUTS, f, st)
    else
      c ← contexts st !! context;
      if shape_ok f c then
        Some (RT_FUNCTION_ERROR_NOERROR, f,
              {| contexts := contexts st;
                 privates := <[private := Some (derive f c)]> (privates st) |})
      else Some (RT_FUNCTION_ERROR_INVALID_SHAPE, f, st).


(** The type of the shared helper [free_pooling(private)], absent from
    the sources. *)
Definition free_pooling_t (P : Type) : Type :=
  Z → state P → option (rt_function_error_t * state P).

(** [free_sum_pooling_local_context], with the helper as a parameter. *)
Definition free_sum_pooling_local_context {P : Type}
    (free_pooling : free_pooling_t P) (f : rt_function_t) (st : state P)
  : option (rt_function_error_t * rt_function_t * state P) :=
  c ← contexts st !! local_context f;
  let p := private c in
  '(ret, st1) ← free_pooling p st;
  Some (ret, f, st1).

End SumPooling.

(** * Specification vocabulary *)

(** The loop [out[i] = g(inp[i])] shared by [exec_relu] and
    [calc_scalar]. *)
Definition elementwise_body (g : float → float) (inp out : Z) (i : Z)
    (m : gmap Z float) : option (gmap Z float) :=
  x ← m !! (inp + i);
  store_float (out + i) (g x) m.

(** The cells [inp[j]] and [out[j]] are allocated for [i <= j < i + k]. *)
Definition cells_allocated (inp out : Z) (i : Z) (k : nat) (m : gmap Z float) : Prop :=
  ∀ j, i ≤ j < i + Z.of_nat k →
    is_Some (m !! (inp + j)) ∧ is_Some (m !! (out + j)).

(** The same, as a check that can be run. *)
Definition cells_allocatedb (inp out : Z) (i : Z) (k : nat) (m : gmap Z float) : bool :=
  forallb (λ j, bool_decide (is_Some (m !! (inp + j)) ∧ is_Some (m !! (out + j))))
          (seqZ i (Z.of_nat k)).

(** No iteration overwrites a cell that a later iteration reads. *)
Definition no_clobber (inp out : Z) (i : Z) (k : nat) : Prop :=
  ∀ j' j, i ≤ j' → j' < j → j < i + Z.of_nat k → out + j' ≠ inp + j.

(** The output buffer of [n] cells does not start inside the input buffer
    after its first cell.  This is so when the two variables share one
    buffer (in-place execution) and when their buffers are disjoint. *)
Definition no_forward_overlap (inp out n : Z) : Prop :=
  out ≤ inp ∨ inp + n ≤ out.

(** The two buffers of [n] cells are one buffer, or do not overlap. *)
Definition same_or_apart (inp out n : Z) : Prop :=
  inp = out ∨ inp + n ≤ out ∨ out + n ≤ inp.

(** The invariant of the private context [p] of a ReLU record: it is the
    object the record's [local_context] designates, it caches the data
    pointers and the element counts of the first input and output, and the
    two counts agree. *)
Definition relu_context_inv (f : rt_function_t) (st : state) (p : relu_private_t) : Prop :=
  relu_privates st !! local_context f = Some p ∧
  ∃ x y,
    inputs f !! 0%nat = Some x ∧ outputs f !! 0%nat = Some y ∧
    input p = data x ∧ input_size p = calc_shape_size (shape x) ∧
    output p = data y ∧ output_size p = calc_shape_size (shape y) ∧
    input_size p = output_size p.

(** The Ready state of a ReLU record: the context invariant holds and the
    bound buffers are allocated for as many cells as the context says. *)
Definition relu_ready (f : rt_function_t) (st : state) (p : relu_private_t) : Prop :=
  relu_context_inv f st p ∧
  cells_allocated (input p) (output p) 0 (Z.to_nat (output_size p)) (floats st).

(** "An allocation that fails on an arity or shape mismatch stores nothing":
    the record and the memory come back as they were. *)
Definition mismatch_stores_nothing (malloc_ret : Z) (f : rt_function_t) (st : state) : Prop :=
  ∀ err f' st',
    allocate_relu_local_context malloc_ret f st = Some (err, f', st') →
    err = RT_FUNCTION_ERROR_INVALID_NUM_OF_INPUTS ∨
    err = RT_FUNCTION_ERROR_INVALID_NUM_OF_OUTPUTS ∨
    err = RT_FUNCTION_ERROR_INVALID_SHAPE →
    f' = f ∧ st' = st.

(** What [exec_relu] can leave in a cell: a float [y] that is not NaN, is
    not below zero and is not the negative zero. *)
Definition relu_value (y : float) : Prop :=
  y ≠ S754_nan ∧ float_gt zero_f y = false ∧ y ≠ S754_zero true ∧ relu y = y.

(** The input and output buffers of [n] cells do not overlap. *)
Definition apart (inp out n : Z) : Prop :=
  inp + n ≤ out ∨ out + n ≤ inp.

(** "On every record in the Ready state [exec_relu] leaves ReLU of
    [input[i]] in [output[i]]", with no condition on the layout of the two
    buffers. *)
Definition relu_elementwise_as_stated (f : rt_function_t) (st : state)
    (p : relu_private_t) : Prop :=
  relu_ready f st p →
  ∃ st', exec_relu f st = Some (RT_FUNCTION_ERROR_NOERROR, f, st') ∧
    ∀ i, 0 ≤ i < output_size p →
      ∃ x, floats st !! (input p + i) = Some x ∧
           floats st' !! (output p + i) =
             Some (if float_gt x zero_f then x else zero_f).

(** "[calc_scalar] leaves [calc_func (input[i], value)] in [output[i]] for
    every [i] below the product of the dimensions of the first output",
    for every record on which it completes. *)
Definition calc_scalar_as_stated (f : rt_function_t) (value : float)
    (calc_func : float → float → float) (st : state) : Prop :=
  ∀ x y st',
    inputs f !! 0%nat = Some x → outputs f !! 0%nat = Some y →
    calc_scalar f value calc_func st = Some st' →
    ∀ i, 0 ≤ i < shape_product (shape y) →
      ∃ v, floats st !! (data x + i) = Some v ∧
           floats st' !! (data y + i) = Some (calc_func v value).

(** "The stored sizes are the products of the dimensions of the two
    shapes, and they are equal." *)
Definition relu_sizes_as_stated (f : rt_function_t) (p : relu_private_t) : Prop :=
  ∃ x y,
    inputs f !! 0%nat = Some x ∧ outputs f !! 0%nat = Some y ∧
    input_size p = shape_product (shape x) ∧
    output_size p = shape_product (shape y) ∧
    input_size p = output_size p.

(** * Sample data *)

Module Sample.

(** [1.0f], [-1.0f], [2.5f] and [-0.0f] in binary32. *)
Definition one : float := S754_finite false 8388608 (-23).
Definition minus_one : float := S754_finite true 8388608 (-23).
Definition two_and_half : float := S754_finite false 10485760 (-22).
Definition minus_zero : float := S754_zero true.

Definition buffer (base : Z) (l : list float) : gmap Z float :=
  list_to_map (imap (λ i v, (base + Z.of_nat i, v)) l).

(** A 2x2 input at address 100 and an output of 4 cells at address 200. *)
Definition x22 : rt_variable_t := {| shape := [2; 2]; data := 100 |}.
Definition y4 : rt_variable_t := {| shape := [4]; data := 200 |}.
Definition y3 : rt_variable_t := {| shape := [3]; data := 200 |}.

Definition record (ins outs : list rt_variable_t) : rt_function_t :=
  {| num_of_inputs := Z.of_nat (length ins);
     inputs := ins;
     num_of_outputs := Z.of_nat (length outs);
     outputs := outs;
     local_context := NULL |}.

Definition f_relu : rt_function_t := record [x22] [y4].
Definition f_inplace : rt_function_t := record [x22] [x22].
Definition f_bad_shape : rt_function_t := record [x22] [y3].
Definition f_two_inputs : rt_function_t := record [x22; x22] [y4].
Definition f_two_outputs : rt_function_t := record [x22] [y4; y4].

Definition mem : state :=
  {| floats := buffer 100 [one; minus_one; minus_zero; S754_nan]
               ∪ buffer 200 [one; one; one; one];
     relu_privates := ∅ |}.

Definition p_relu : relu_private_t :=
  {| input := 100; input_size := 4; output := 200; output_size := 4 |}.
Definition p_inplace : relu_private_t :=
  {| input := 100; input_size := 4; output := 100; output_size := 4 |}.
Definition p_bad_shape : relu_private_t :=
  {| input := 100; input_size := 4; output := 200; output_size := 3 |}.

(** The context allocation stores for [f_huge], defined further down:
    both [int] sizes are 0. *)
Definition p_wrapped : relu_private_t :=
  {| input := 100; input_size := 0; output := 200; output_size := 0 |}.

(** A context whose output buffer starts one cell into its input
    buffer. *)
Definition p_shifted : relu_private_t :=
  {| input := 100; input_size := 3; output := 101; output_size := 3 |}.

(** The states reached by a successful allocation at address 64. *)
Definition ready_mem (p : relu_private_t) : state :=
  set_relu_privates {[ 64 := p ]} mem.

(** A strategy for [calc_scalar] that needs no float arithmetic: a
    positive element is kept, any other is replaced by the scalar. *)
Definition pick (x v : float) : float := if float_gt x zero_f then x else v.

(** Convolution: one kernel at code address 7 that reports success. *)
Definition conv_kernel : Convolution.entry_point :=
  λ f st, Some (RT_FUNCTION_ERROR_NOERROR, f, st).

Definition conv_code (a : Z) : option Convolution.entry_point :=
  if decide (a = 7) then Some conv_kernel else None.

Definition conv_mem : Convolution.state :=
  {| Convolution.floats := ∅;
     Convolution.contexts := {[ 32 := {| Convolution.private := 48 |} ]};
     Convolution.privates := {[ 48 := {| Convolution.exec := 7 |} ]};
     Convolution.indirect_calls := [] |}.

Definition f_conv : rt_function_t :=
  set_local_context 32 (record [x22; x22; x22] [y4]).

(** Sum pooling: a record whose local context sits at address 32. *)
Definition pool_context : SumPooling.sum_pooling_local_context_t :=
  {| SumPooling.kernel := [2; 2];
     SumPooling.stride := [2; 2];
     SumPooling.ignore_border := 1;
     SumPooling.pad := [0; 0];
     SumPooling.private := 999 |}.

Definition pool_mem : SumPooling.state unit :=
  {| SumPooling.contexts := {[ 32 := pool_context ]};
     SumPooling.privates := ∅ |}.

Definition f_pool : rt_function_t :=
  set_local_context 32 (record [x22] [y4]).

(** A record whose output buffer starts one cell into its input buffer;
    [p_shifted] is the context allocation builds for it. *)
Definition x3 : rt_variable_t := {| shape := [3]; data := 100 |}.
Definition y3_shifted : rt_variable_t := {| shape := [3]; data := 101 |}.
Definition f_shifted : rt_function_t := record [x3] [y3_shifted].

(** Shapes whose product, 65536 * 65536, does not fit in an [int], and an
    empty shape of extent 0. *)
Definition x_huge : rt_variable_t := {| shape := [65536; 65536]; data := 100 |}.
Definition y_huge : rt_variable_t := {| shape := [65536; 65536]; data := 200 |}.
Definition y_none : rt_variable_t := {| shape := [0]; data := 200 |}.
Definition f_huge : rt_function_t := record [x_huge] [y_none].
Definition f_huge_out : rt_function_t := record [x22] [y_huge].

(** The pooling helper of the allocate contract, with every shape
    accepted and nothing to derive. *)
Definition pool_allocate : SumPooling.allocate_pooling_t unit :=
  SumPooling.allocate_pooling_spec (λ _ _, true) (λ _ _, tt).

(** A pooling helper that reports a shape error and one that releases the
    private object it is given. *)
Definition pool_reject : SumPooling.allocate_pooling_t unit :=
  λ f context private st, Some (RT_FUNCTION_ERROR_INVALID_SHAPE, f, st).

Definition pool_release : SumPooling.free_pooling_t unit :=
  λ p st,
    h ← free_block p (SumPooling.privates st);
    Some (RT_FUNCTION_ERROR_NOERROR,
          {| SumPooling.contexts := SumPooling.contexts st;
             SumPooling.privates := h |}).

(** A memory in which the data buffers of [x22] and [y4] are missing. *)
Definition no_floats : state := {| floats := ∅; relu_privates := ∅ |}.

(** A record whose output has a dimension of extent 0. *)
Definition y0 : rt_variable_t := {| shape := [0; 4]; data := 200 |}.
Definition f_empty : rt_function_t := record [x22] [y0].

(** One more strategy for [calc_scalar]: the scalar replaces every
    element. *)
Definition replace (x v : float) : float := v.

End Sample.

(** * Properties *)

(** ** [int] arithmetic *)

Lemma to_int_range z : int_range (to_int z).
Proof.
  unfold int_range, to_int.
  pose proof (Z.mod_pos_bound (z + 2147483648) 4294967296 ltac:(lia)). lia.
Qed.

Lemma to_int_id z : int_range z → to_int z = z.
Proof.
  unfold int_range, to_int. intros Hz.
  rewrite Z.mod_small by lia. lia.
Qed.

Lemma calc_shape_size_range s : int_range (calc_shape_size s).
Proof. apply to_int_range. Qed.

(** Within the range of [int], [calc_shape_size] is the product of the
    dimensions. *)
Lemma calc_shape_size_product s :
  int_range (shape_product s) → calc_shape_size s = shape_product s.
Proof. apply to_int_id. Qed.

(** ** Elementwise loops over the float heap

    [exec_relu] and [calc_scalar] run the same loop; its properties are
    established once, for an arbitrary [g] and arbitrary pointers. *)

Section elementwise.
Variable g : float → float.
Variables inp out : Z.

Local Abbreviation body := (elementwise_body g inp out).

Lemma elementwise_body_Some i m m1 :
  body i m = Some m1 ↔
  ∃ x, m !! (inp + i) = Some x ∧ is_Some (m !! (out + i)) ∧
       m1 = <[out + i := g x]> m.
Proof.
  unfold elementwise_body, store_float. split.
  - destruct (m !! (inp + i)) as [x|] eqn:Hx; simpl; [|discriminate].
    destruct (m !! (out + i)) as [y|] eqn:Hy; [|discriminate].
    intros [= <-]. exists x. eauto.
  - intros (x & -> & [y ->] & ->). reflexivity.
Qed.

Lemma elementwise_total k : ∀ i m,
  cells_allocated inp out i k m → is_Some (for_upto k i body m).
Proof.
  induction k as [|k IH]; intros i m Hal; simpl; [eauto|].
  destruct (Hal i ltac:(lia)) as [[x Hx] Hy].
  assert (Hb : body i m = Some (<[out + i := g x]> m))
    by (apply elementwise_body_Some; eauto).
  rewrite Hb. simpl. apply IH. intros j Hj.
  destruct (Hal j ltac:(lia)) as [Hi Ho].
  split; rewrite lookup_insert_is_Some; destruct (decide (out + i = inp + j));
    destruct (decide (out + i = out + j)); auto.
Qed.

Lemma elementwise_allocated k : ∀ i m m',
  for_upto k i body m = Some m' →
  ∀ a, is_Some (m' !! a) ↔ is_Some (m !! a).
Proof.
  induction k as [|k IH]; intros i m m' Hrun a; simpl in Hrun.
  - by injection Hrun as <-.
  - destruct (body i m) as [m1|] eqn:Hb; [|discriminate].
    simpl in Hrun. rewrite (IH _ _ _ Hrun a).
    apply elementwise_body_Some in Hb as (x & _ & Ho & ->).
    rewrite lookup_insert_is_Some.
    destruct (decide (out + i = a)) as [<-|Hne]; split; auto.
    intros [?|[? ?]]; [contradiction|assumption].
Qed.

Lemma elementwise_frame k : ∀ i m m',
  for_upto k i body m = Some m' →
  ∀ a, ¬ (out + i ≤ a < out + i + Z.of_nat k) → m' !! a = m !! a.
Proof.
  induction k as [|k IH]; intros i m m' Hrun a Ha; simpl in Hrun.
  - by injection Hrun as <-.
  - destruct (body i m) as [m1|] eqn:Hb; [|discriminate].
    simpl in Hrun. rewrite (IH _ _ _ Hrun a) by lia.
    apply elementwise_body_Some in Hb as (x & _ & _ & ->).
    apply lookup_insert_ne. lia.
Qed.

Lemma elementwise_values k : ∀ i m m',
  for_upto k i body m = Some m' →
  no_clobber inp out i k →
  ∀ j, i ≤ j < i + Z.of_nat k →
    ∃ x, m !! (inp + j) = Some x ∧ m' !! (out + j) = Some (g x).
Proof.
  induction k as [|k IH]; intros i m m' Hrun Hnc j Hj; simpl in Hrun; [lia|].
  destruct (body i m) as [m1|] eqn:Hb; [|discriminate].
  simpl in Hrun.
  apply elementwise_body_Some in Hb as (x & Hx & _ & ->).
  destruct (decide (j = i)) as [->|Hne].
  - exists x. split; [done|].
    rewrite (elementwise_frame _ _ _ _ Hrun) by lia.
    apply lookup_insert_eq.
  - destruct (IH _ _ _ Hrun) with (j := j) as (y & Hy & Hout); [|lia|].
    + intros j1 j2 ? ? ?. apply Hnc; lia.
    + exists y. split; [|done].
      rewrite lookup_insert_ne in Hy; [done|]. apply Hnc; lia.
Qed.

(** Running the loop in place on cells that [g] leaves fixed changes
    nothing. *)
Lemma elementwise_fixed k : ∀ i m,
  inp = out →
  (∀ j, i ≤ j < i + Z.of_nat k → ∃ x, m !! (out + j) = Some x ∧ g x = x) →
  for_upto k i body m = Some m.
Proof.
  induction k as [|k IH]; intros i m Heq Hfix; simpl; [done|].
  destruct (Hfix i ltac:(lia)) as (x & Hx & Hg).
  assert (Hb : body i m = Some (<[out + i := g x]> m)).
  { apply elementwise_body_Some. exists x. rewrite Heq. eauto. }
  rewrite Hb, Hg, (insert_id _ _ _ Hx). simpl.
  apply IH; [done|]. intros j Hj. apply Hfix. lia.
Qed.

Lemma no_forward_overlap_no_clobber n :
  no_forward_overlap inp out n → no_clobber inp out 0 (Z.to_nat n).
Proof. intros [H|H] j' j ? ? ?; lia. Qed.

Lemma same_or_apart_no_forward_overlap n :
  same_or_apart inp out n → no_forward_overlap inp out n.
Proof. unfold same_or_apart, no_forward_overlap. lia. Qed.
End elementwise.

(** The loops of the two kernels are instances of the elementwise loop. *)
Lemma exec_relu_body_elementwise p :
  exec_relu_body p = elementwise_body relu (input p) (output p).
Proof. reflexivity. Qed.

Lemma calc_scalar_body_elementwise inp out value calc_func :
  calc_scalar_body inp out value calc_func =
  elementwise_body (λ x, calc_func x value) inp out.
Proof. reflexivity. Qed.

(** ** The ReLU function on floats *)

Lemma float_gt_zero_zero s : float_gt (S754_zero s) zero_f = false.
Proof. reflexivity. Qed.

Lemma relu_cases x : relu x = x ∧ float_gt x zero_f = true ∨
                     relu x = zero_f ∧ float_gt x zero_f = false.
Proof. unfold relu. destruct (float_gt x zero_f); auto. Qed.

Lemma relu_idempotent x : relu (relu x) = relu x.
Proof.
  destruct (relu_cases x) as [[Hx _]|[Hx _]]; rewrite Hx; [exact Hx|].
  reflexivity.
Qed.

Lemma float_eq_refl x : x ≠ S754_nan → float_eq x x = true.
Proof.
  unfold float_eq, SFeqb. destruct x as [s|s| |s m e]; try destruct s; try done;
    intros _; simpl; by rewrite Z.compare_refl, Pos.compare_cont_refl.
Qed.

Lemma relu_not_nan x : relu x ≠ S754_nan.
Proof.
  destruct (relu_cases x) as [[-> Hgt]|[-> _]]; [|done].
  by intros ->.
Qed.

(** The floats of the sample data are binary32 data. *)
Example sample_floats_binary32 :
  forallb is_binary32
    [Sample.one; Sample.minus_one; Sample.two_and_half; Sample.minus_zero;
     zero_f; S754_nan] = true.
Proof. reflexivity. Qed.

(** ** Inversion of the two ReLU entry points *)

Lemma exec_relu_Some f st e f' st' :
  exec_relu f st = Some (e, f', st') ↔
  ∃ p m, relu_privates st !! local_context f = Some p ∧
         for_loop (output_size p) (exec_relu_body p) (floats st) = Some m ∧
         e = RT_FUNCTION_ERROR_NOERROR ∧ f' = f ∧ st' = set_floats m st.
Proof.
  unfold exec_relu. split.
  - destruct (relu_privates st !! local_context f) as [p|]; [|discriminate].
    simpl. destruct (for_loop _ _ _) as [m|] eqn:Hm; [|discriminate].
    simpl. intros [= <- <- <-]. eauto 10.
  - intros (p & m & -> & Hm & -> & -> & ->). simpl. by rewrite Hm.
Qed.

Lemma allocate_relu_inv m f st err f' st' :
  allocate_relu_local_context m f st = Some (err, f', st') →
  (err = RT_FUNCTION_ERROR_INVALID_NUM_OF_INPUTS ∧ num_of_inputs f ≠ 1 ∧
   f' = f ∧ st' = st) ∨
  (err = RT_FUNCTION_ERROR_INVALID_NUM_OF_OUTPUTS ∧ num_of_inputs f = 1 ∧
   num_of_outputs f ≠ 1 ∧ f' = f ∧ st' = st) ∨
  (err = RT_FUNCTION_ERROR_MALLOC ∧ num_of_inputs f = 1 ∧ num_of_outputs f = 1 ∧
   m = NULL ∧ f' = f ∧ st' = st) ∨
  (∃ x y,
     num_of_inputs f = 1 ∧ num_of_outputs f = 1 ∧ m ≠ NULL ∧
     inputs f !! 0%nat = Some x ∧ outputs f !! 0%nat = Some y ∧
     f' = set_local_context m f ∧
     st' = set_relu_privates
             (<[m := {| input := data x;
                        input_size := calc_shape_size (shape x);
                        output := data y;
                        output_size := calc_shape_size (shape y) |}]>
                (relu_privates st)) st ∧
     (err = RT_FUNCTION_ERROR_INVALID_SHAPE ∧
      calc_shape_size (shape x) ≠ calc_shape_size (shape y) ∨
      err = RT_FUNCTION_ERROR_NOERROR ∧
      calc_shape_size (shape x) = calc_shape_size (shape y))).
Proof.
  unfold allocate_relu_local_context.
  case_decide as Hin; [intros [= <- <- <-]; auto|].
  case_decide as Hout; [intros [= <- <- <-]; right; left; repeat split; auto; lia|].
  simpl. case_decide as Hm;
    [intros [= <- <- <-]; right; right; left; repeat split; auto; lia|].
  destruct (inputs f !! 0%nat) as [x|]; [|discriminate].
  destruct (outputs f !! 0%nat) as [y|]; [|discriminate].
  simpl. intros Hret. right; right; right. exists x, y.
  case_decide as Hsz; injection Hret as <- <- <-;
    (repeat split; [lia|lia|done..|]); [left|right]; split; auto; lia.
Qed.

Lemma cells_allocatedb_spec inp out i k m :
  cells_allocatedb inp out i k m = true → cells_allocated inp out i k m.
Proof.
  unfold cells_allocatedb, cells_allocated. rewrite forallb_forall.
  intros Hall j Hj. eapply bool_decide_eq_true_1, Hall.
  apply list_elem_of_In, elem_of_seqZ. lia.
Qed.

Lemma relu_ready_for_loop f st p :
  relu_ready f st p →
  ∃ m, for_loop (output_size p) (exec_relu_body p) (floats st) = Some m.
Proof.
  intros [_ Hal]. unfold for_loop.
  by apply (elementwise_total relu (input p) (output p)) in Hal as [m Hm]; eauto.
Qed.

(** ** Allocation of the ReLU context *)

(** C3.  A record bound with a number of inputs other than 1 makes
    [allocate_relu_local_context] fail with
    [RT_FUNCTION_ERROR_INVALID_NUM_OF_INPUTS]; a record with one input and a
    number of outputs other than 1 makes it fail with
    [RT_FUNCTION_ERROR_INVALID_NUM_OF_OUTPUTS] (the inputs are tested
    first, so a record with both counts wrong gets the former status).  In
    every one of these cases the record, hence its [local_context], and the
    memory come back unchanged: no context is stored.  The outcome of
    [malloc] plays no part. *)
Theorem allocate_relu_arity_mismatch (m : Z) (f : rt_function_t) (st : state) :
  (num_of_inputs f ≠ 1 →
   allocate_relu_local_context m f st =
     Some (RT_FUNCTION_ERROR_INVALID_NUM_OF_INPUTS, f, st)) ∧
  (num_of_inputs f = 1 → num_of_outputs f ≠ 1 →
   allocate_relu_local_context m f st =
     Some (RT_FUNCTION_ERROR_INVALID_NUM_OF_OUTPUTS, f, st)) ∧
  (num_of_outputs f ≠ 1 →
   ∃ err, allocate_relu_local_context m f st = Some (err, f, st) ∧
          (err = RT_FUNCTION_ERROR_INVALID_NUM_OF_INPUTS ∨
           err = RT_FUNCTION_ERROR_INVALID_NUM_OF_OUTPUTS)).
Proof.
  unfold allocate_relu_local_context. split; [|split].
  - intros Hin. by rewrite decide_True.
  - intros Hin Hout. rewrite decide_False by lia. by rewrite decide_True.
  - intros Hout. case_decide; [eauto|]. rewrite decide_True by done. eauto.
Qed.

Lemma allocate_relu_arity_mismatch_witness :
  allocate_relu_local_context 64 Sample.f_two_inputs Sample.mem =
    Some (RT_FUNCTION_ERROR_INVALID_NUM_OF_INPUTS, Sample.f_two_inputs, Sample.mem) ∧
  allocate_relu_local_context 64 Sample.f_two_outputs Sample.mem =
    Some (RT_FUNCTION_ERROR_INVALID_NUM_OF_OUTPUTS, Sample.f_two_outputs, Sample.mem).
Proof.
  split.
  - apply (proj1 (allocate_relu_arity_mismatch 64 Sample.f_two_inputs Sample.mem)).
    vm_compute. discriminate.
  - apply (proj1 (proj2 (allocate_relu_arity_mismatch 64 Sample.f_two_outputs Sample.mem))).
    + reflexivity.
    + vm_compute. discriminate.
Defined.


(** C1, as stated, fails.  With a 2x2 input and a 3-cell output the
    allocation reports [RT_FUNCTION_ERROR_INVALID_SHAPE], yet the record
    comes back with [local_context] set to the block [malloc] returned, and
    the block holds a filled context. *)
Lemma allocate_relu_shape_mismatch_stores_context :
  allocate_relu_local_context 64 Sample.f_bad_shape Sample.mem =
    Some (RT_FUNCTION_ERROR_INVALID_SHAPE,
          set_local_context 64 Sample.f_bad_shape,
          Sample.ready_mem Sample.p_bad_shape) ∧
  local_context Sample.f_bad_shape = NULL ∧
  local_context (set_local_context 64 Sample.f_bad_shape) = 64 ∧
  relu_privates (Sample.ready_mem Sample.p_bad_shape) !! 64 = Some Sample.p_bad_shape ∧
  ¬ mismatch_stores_nothing 64 Sample.f_bad_shape Sample.mem.
Proof.
  assert (Hrun : allocate_relu_local_context 64 Sample.f_bad_shape Sample.mem =
    Some (RT_FUNCTION_ERROR_INVALID_SHAPE,
          set_local_context 64 Sample.f_bad_shape,
          Sample.ready_mem Sample.p_bad_shape)) by reflexivity.
  repeat split; try done.
  intros Hno. destruct (Hno _ _ _ Hrun) as [Hf _]; [auto|].
  discriminate Hf.
Qed.

(** C1, amended.  When [allocate_relu_local_context] fails on the arity of
    the record, the record and the memory are unchanged: nothing is stored
    and [local_context] keeps its value.  When it fails with
    [RT_FUNCTION_ERROR_INVALID_SHAPE], the allocation had succeeded and the
    context is stored: [local_context] is the new block, and the block
    holds the data pointers of the first input and of the first output
    together with their two element counts, which differ; the rest of the
    record, the float cells and the other contexts are unchanged. *)
Theorem allocate_relu_mismatch (m : Z) (f : rt_function_t) (st : state)
    (err : rt_function_error_t) (f' : rt_function_t) (st' : state) :
  allocate_relu_local_context m f st = Some (err, f', st') →
  (err = RT_FUNCTION_ERROR_INVALID_NUM_OF_INPUTS ∨
   err = RT_FUNCTION_ERROR_INVALID_NUM_OF_OUTPUTS →
   f' = f ∧ st' = st) ∧
  (err = RT_FUNCTION_ERROR_INVALID_SHAPE →
   m ≠ NULL ∧ f' = set_local_context m f ∧ floats st' = floats st ∧
   (∀ a, a ≠ m → relu_privates st' !! a = relu_privates st !! a) ∧
   ∃ x y,
     inputs f !! 0%nat = Some x ∧ outputs f !! 0%nat = Some y ∧
     relu_privates st' !! m =
       Some {| input := data x;
               input_size := calc_shape_size (shape x);
               output := data y;
               output_size := calc_shape_size (shape y) |} ∧
     calc_shape_size (shape x) ≠ calc_shape_size (shape y)).
Proof.
  intros Hrun.
  apply allocate_relu_inv in Hrun
    as [(-> & _ & -> & ->)|[(-> & _ & _ & -> & ->)|[(-> & _ & _ & _ & -> & ->)|
        (x & y & _ & _ & Hm & Hx & Hy & -> & -> & [[-> Hsz]|[-> Hsz]])]]];
    (split; [intros [?|?]; by try discriminate | intros ?; try discriminate]).
  repeat split; [done| |].
  - intros a Ha. simpl. by rewrite lookup_insert_ne.
  - exists x, y. simpl. rewrite lookup_insert_eq. done.
Qed.

Lemma allocate_relu_mismatch_witness :
  64 ≠ NULL ∧
  set_local_context 64 Sample.f_bad_shape = set_local_context 64 Sample.f_bad_shape ∧
  floats (Sample.ready_mem Sample.p_bad_shape) = floats Sample.mem ∧
  (∀ a, a ≠ 64 →
     relu_privates (Sample.ready_mem Sample.p_bad_shape) !! a =
     relu_privates Sample.mem !! a) ∧
  ∃ x y,
    inputs Sample.f_bad_shape !! 0%nat = Some x ∧
    outputs Sample.f_bad_shape !! 0%nat = Some y ∧
    relu_privates (Sample.ready_mem Sample.p_bad_shape) !! 64 =
      Some {| input := data x;
              input_size := calc_shape_size (shape x);
              output := data y;
              output_size := calc_shape_size (shape y) |} ∧
    calc_shape_size (shape x) ≠ calc_shape_size (shape y).
Proof.
  apply (allocate_relu_mismatch 64 Sample.f_bad_shape Sample.mem
           RT_FUNCTION_ERROR_INVALID_SHAPE
           (set_local_context 64 Sample.f_bad_shape)
           (Sample.ready_mem Sample.p_bad_shape)); reflexivity.
Defined.

(** ** Execution of ReLU *)

(** C6.  On a record in the Ready state [exec_relu] has a defined outcome
    and returns [RT_FUNCTION_ERROR_NOERROR], whatever floats the input
    buffer holds (NaN, infinities and signed zeros included); the record is
    Ready again afterwards, so this holds on every later call as well. *)
Theorem exec_relu_never_fails (f : rt_function_t) (st : state) (p : relu_private_t) :
  relu_ready f st p →
  ∃ st', exec_relu f st = Some (RT_FUNCTION_ERROR_NOERROR, f, st') ∧
         relu_ready f st' p.
Proof.
  intros Hready. destruct (relu_ready_for_loop _ _ _ Hready) as [m Hm].
  destruct Hready as [[Hctx Hinv] Hal].
  exists (set_floats m st). split.
  - apply exec_relu_Some. eauto 10.
  - split; [by split|]. intros j Hj. destruct (Hal j Hj) as [Hi Ho]. simpl.
    split; by apply (elementwise_allocated relu (input p) (output p) _ _ _ _ Hm).
Qed.

Lemma exec_relu_never_fails_witness :
  ∃ st', exec_relu (set_local_context 64 Sample.f_relu)
                   (Sample.ready_mem Sample.p_relu) =
           Some (RT_FUNCTION_ERROR_NOERROR, set_local_context 64 Sample.f_relu, st') ∧
         relu_ready (set_local_context 64 Sample.f_relu) st' Sample.p_relu.
Proof.
  apply (exec_relu_never_fails (set_local_context 64 Sample.f_relu)
           (Sample.ready_mem Sample.p_relu) Sample.p_relu).
  split.
  - split; [reflexivity|]. exists Sample.x22, Sample.y4. repeat split; reflexivity.
  - apply cells_allocatedb_spec. vm_compute. reflexivity.
Defined.

(** What [exec_relu] leaves when the output buffer starts one cell into
    the input buffer: each iteration reads the cell the previous one
    wrote. *)
Lemma exec_relu_shifted_run :
  ∃ st', exec_relu (set_local_context 64 Sample.f_shifted)
                   (Sample.ready_mem Sample.p_shifted) =
           Some (RT_FUNCTION_ERROR_NOERROR, set_local_context 64 Sample.f_shifted, st') ∧
         floats (Sample.ready_mem Sample.p_shifted) !! 101 = Some Sample.minus_one ∧
         floats st' !! 102 = Some Sample.one.
Proof. eexists. repeat split; reflexivity. Qed.

Lemma relu_ready_shifted :
  relu_ready (set_local_context 64 Sample.f_shifted)
    (Sample.ready_mem Sample.p_shifted) Sample.p_shifted.
Proof.
  split.
  - split; [reflexivity|].
    exists Sample.x3, Sample.y3_shifted. repeat split; reflexivity.
  - apply cells_allocatedb_spec. vm_compute. reflexivity.
Qed.

(** C2, as stated, fails.  A record with a 3-cell input at address 100 and
    a 3-cell output at address 101 passes allocation and is in the Ready
    state; [exec_relu] reads [-1.0f] from [input[1]] before the call but
    leaves [1.0f], not [0.0f], in [output[1]]. *)
Lemma exec_relu_overlap_counterexample :
  allocate_relu_local_context 64 Sample.f_shifted Sample.mem =
    Some (RT_FUNCTION_ERROR_NOERROR, set_local_context 64 Sample.f_shifted,
          Sample.ready_mem Sample.p_shifted) ∧
  relu_ready (set_local_context 64 Sample.f_shifted)
    (Sample.ready_mem Sample.p_shifted) Sample.p_shifted ∧
  ¬ relu_elementwise_as_stated (set_local_context 64 Sample.f_shifted)
      (Sample.ready_mem Sample.p_shifted) Sample.p_shifted.
Proof.
  split; [reflexivity|]. split; [exact relu_ready_shifted|].
  intros Hclaim. destruct (Hclaim relu_ready_shifted) as (st' & Hrun & Hval).
  destruct exec_relu_shifted_run as (st0 & Hrun0 & Hin & Hout).
  assert (st' = st0) as -> by congruence.
  destruct (Hval 1) as (x & Hx & Hy); [vm_compute; split; congruence|].
  change (input Sample.p_shifted + 1) with 101 in Hx.
  change (output Sample.p_shifted + 1) with 102 in Hy.
  rewrite Hin in Hx. injection Hx as <-. rewrite Hout in Hy.
  vm_compute in Hy. discriminate Hy.
Qed.

(** C2, amended.  On a record in the Ready state whose output buffer does not start
    inside the input buffer after its first cell (so in particular when it
    is the input buffer itself, and when the two buffers do not overlap),
    [exec_relu] succeeds and, for every
    [i] in [[0, size)] with [size] the output element count, leaves in
    [output[i]] the value [x] read from [input[i]] when [x > 0] and [0.0f]
    otherwise.  An input of zero, of either sign, yields [0.0f]. *)
Theorem exec_relu_elementwise (f : rt_function_t) (st : state) (p : relu_private_t) :
  relu_ready f st p →
  no_forward_overlap (input p) (output p) (output_size p) →
  ∃ st', exec_relu f st = Some (RT_FUNCTION_ERROR_NOERROR, f, st') ∧
    (∀ i, 0 ≤ i < output_size p →
       ∃ x, floats st !! (input p + i) = Some x ∧
            floats st' !! (output p + i) =
              Some (if float_gt x zero_f then x else zero_f)) ∧
    (∀ i x, 0 ≤ i < output_size p →
       floats st !! (input p + i) = Some x → float_eq x zero_f = true →
       floats st' !! (output p + i) = Some zero_f).
Proof.
  intros Hready Hov. destruct (relu_ready_for_loop _ _ _ Hready) as [m Hm].
  destruct Hready as [[Hctx _] _].
  assert (Hval : ∀ i, 0 ≤ i < output_size p →
            ∃ x, floats st !! (input p + i) = Some x ∧
                 m !! (output p + i) = Some (relu x)).
  { intros i Hi.
    apply (elementwise_values relu (input p) (output p) _ _ _ _ Hm);
      [by apply no_forward_overlap_no_clobber | lia]. }
  exists (set_floats m st). split; [apply exec_relu_Some; eauto 10|].
  split; [exact Hval|].
  intros i x Hi Hx Hzero. simpl. destruct (Hval i Hi) as (x' & Hx' & Hout).
  rewrite Hout. assert (x' = x) as -> by congruence. f_equal.
  destruct x as [s|s| |s mx ex]; try destruct s; try discriminate Hzero; reflexivity.
Qed.

Lemma exec_relu_elementwise_witness :
  ∃ st', exec_relu (set_local_context 64 Sample.f_relu)
                   (Sample.ready_mem Sample.p_relu) =
           Some (RT_FUNCTION_ERROR_NOERROR, set_local_context 64 Sample.f_relu, st') ∧
    (∀ i, 0 ≤ i < 4 →
       ∃ x, floats (Sample.ready_mem Sample.p_relu) !! (100 + i) = Some x ∧
            floats st' !! (200 + i) =
              Some (if float_gt x zero_f then x else zero_f)) ∧
    (∀ i x, 0 ≤ i < 4 →
       floats (Sample.ready_mem Sample.p_relu) !! (100 + i) = Some x →
       float_eq x zero_f = true →
       floats st' !! (200 + i) = Some zero_f).
Proof.
  apply (exec_relu_elementwise (set_local_context 64 Sample.f_relu)
           (Sample.ready_mem Sample.p_relu) Sample.p_relu).
  - split.
    + split; [reflexivity|]. exists Sample.x22, Sample.y4. repeat split; reflexivity.
    + apply cells_allocatedb_spec. vm_compute. reflexivity.
  - right. vm_compute. discriminate.
Defined.

(** What the sample run leaves in the output buffer: [1.0f] is kept,
    [-1.0f], [-0.0f] and NaN become [0.0f]. *)
Example exec_relu_sample :
  ∃ st', exec_relu (set_local_context 64 Sample.f_relu)
                   (Sample.ready_mem Sample.p_relu) =
           Some (RT_FUNCTION_ERROR_NOERROR, set_local_context 64 Sample.f_relu, st') ∧
         (λ i, floats st' !! (200 + i)) <$> [0; 1; 2; 3] =
           [Some Sample.one; Some zero_f; Some zero_f; Some zero_f].
Proof. eexists. split; reflexivity. Qed.

(** The precondition on the layout of the buffers is needed: when the
    output buffer starts one cell into the input buffer, each iteration
    reads the cell the previous one wrote. *)
Example exec_relu_shifted_buffers :
  ∃ st', exec_relu (set_local_context 64 Sample.f_relu)
                   (Sample.ready_mem Sample.p_shifted) =
           Some (RT_FUNCTION_ERROR_NOERROR, set_local_context 64 Sample.f_relu, st') ∧
         (λ i, floats (Sample.ready_mem Sample.p_shifted) !! (100 + i)) <$> [0; 1; 2] =
           [Some Sample.one; Some Sample.minus_one; Some Sample.minus_zero] ∧
         (λ i, floats st' !! (101 + i)) <$> [0; 1; 2] =
           [Some Sample.one; Some Sample.one; Some Sample.one].
Proof. eexists. repeat split; reflexivity. Qed.

(** C5.  The ReLU function is idempotent, [relu (relu x)] is [relu x] for
    every float [x], as the same datum and under the C comparison [==]; and
    when the context's input and output pointers are the
    same buffer, a second [exec_relu] right after a first one returns the
    same status and leaves the memory exactly as the first one left it. *)
Theorem exec_relu_idempotent :
  (∀ x, relu (relu x) = relu x ∧ float_eq (relu (relu x)) (relu x) = true) ∧
  (∀ f st p e f1 st1,
     relu_privates st !! local_context f = Some p →
     input p = output p →
     exec_relu f st = Some (e, f1, st1) →
     exec_relu f1 st1 = Some (e, f1, st1)).
Proof.
  split.
  { intros x. rewrite relu_idempotent. split; [done|].
    apply float_eq_refl, relu_not_nan. }
  intros f st p e f1 st1 Hp Hsame Hrun.
  apply exec_relu_Some in Hrun as (p' & m & Hp' & Hm & -> & -> & ->).
  assert (p' = p) as -> by congruence.
  apply exec_relu_Some. exists p, m. repeat split; [done|].
  unfold for_loop in *. simpl.
  apply (elementwise_fixed relu (input p) (output p)); [done|].
  intros j Hj.
  destruct (elementwise_values relu (input p) (output p) _ _ _ _ Hm) with (j := j)
    as (x & _ & Hout); [|done|].
  - intros j1 j2 ? ? ?. lia.
  - exists (relu x). split; [done|]. apply relu_idempotent.
Qed.

Lemma exec_relu_idempotent_witness :
  ∃ st1,
    exec_relu (set_local_context 64 Sample.f_inplace)
              (Sample.ready_mem Sample.p_inplace) =
      Some (RT_FUNCTION_ERROR_NOERROR, set_local_context 64 Sample.f_inplace, st1) ∧
    exec_relu (set_local_context 64 Sample.f_inplace) st1 =
      Some (RT_FUNCTION_ERROR_NOERROR, set_local_context 64 Sample.f_inplace, st1).
Proof.
  eexists. split; [reflexivity|].
  apply (proj2 exec_relu_idempotent (set_local_context 64 Sample.f_inplace)
           (Sample.ready_mem Sample.p_inplace) Sample.p_inplace);
    reflexivity.
Defined.

(** C9, as stated, fails.  With an input of shape 65536 x 65536 and an
    output of shape 0, allocation returns [RT_FUNCTION_ERROR_NOERROR]: the
    stored [input_size] is the [int] 0, not the product 4294967296 of the
    dimensions of the input. *)
Lemma allocate_relu_sizes_counterexample :
  allocate_relu_local_context 64 Sample.f_huge Sample.mem =
    Some (RT_FUNCTION_ERROR_NOERROR, set_local_context 64 Sample.f_huge,
          Sample.ready_mem Sample.p_wrapped) ∧
  relu_privates (Sample.ready_mem Sample.p_wrapped) !! 64 = Some Sample.p_wrapped ∧
  shape_product (shape Sample.x_huge) = 4294967296 ∧
  input_size Sample.p_wrapped = 0 ∧
  ¬ relu_sizes_as_stated (set_local_context 64 Sample.f_huge) Sample.p_wrapped.
Proof.
  repeat split; try reflexivity.
  intros (x & y & Hx & _ & Hi & _).
  injection Hx as <-. vm_compute in Hi. discriminate Hi.
Qed.

(** C9, amended.  When [allocate_relu_local_context] returns
    [RT_FUNCTION_ERROR_NOERROR], the context [p] it stored satisfies the
    invariant [relu_context_inv]: [p] is what [local_context] designates,
    [input_size p] and [output_size p] are the element counts
    [calc_shape_size] returns for the first input and the first output,
    they are equal, and the cached pointers are the [data] pointers of
    these two variables.  The two sizes are [int] values: each is the
    product of the dimensions of its shape whenever that product is
    within the range of [int].  Every [exec_relu] run from a state that
    satisfies the invariant returns the same record in a state that
    satisfies it. *)
Theorem allocate_relu_context_invariant (m : Z) (f : rt_function_t) (st : state)
    (f' : rt_function_t) (st' : state) :
  allocate_relu_local_context m f st = Some (RT_FUNCTION_ERROR_NOERROR, f', st') →
  ∃ p, relu_context_inv f' st' p ∧
       int_range (input_size p) ∧ int_range (output_size p) ∧
       (∀ x y, inputs f' !! 0%nat = Some x → outputs f' !! 0%nat = Some y →
          (int_range (shape_product (shape x)) →
           input_size p = shape_product (shape x)) ∧
          (int_range (shape_product (shape y)) →
           output_size p = shape_product (shape y))) ∧
       (∀ st1 e f2 st2,
          relu_context_inv f' st1 p →
          exec_relu f' st1 = Some (e, f2, st2) →
          f2 = f' ∧ relu_context_inv f2 st2 p).
Proof.
  intros Hrun.
  apply allocate_relu_inv in Hrun
    as [(? & _)|[(? & _)|[(? & _)|
        (x & y & _ & _ & Hm & Hx & Hy & -> & -> & [[? _]|[_ Hsz]])]]];
    try discriminate.
  eexists. split; [|split; [|split; [|split]]].
  - split; [simpl; apply lookup_insert_eq|].
    exists x, y. repeat split; done.
  - apply calc_shape_size_range.
  - apply calc_shape_size_range.
  - intros x' y' Hx' Hy'. simpl in Hx', Hy'.
    assert (x' = x) as -> by congruence. assert (y' = y) as -> by congruence.
    split; apply calc_shape_size_product.
  - intros st1 e f2 st2 Hinv Hexec.
    apply exec_relu_Some in Hexec as (p' & m' & _ & _ & _ & -> & ->).
    split; [done|]. exact Hinv.
Qed.

Lemma allocate_relu_context_invariant_witness :
  ∃ p, relu_context_inv (set_local_context 64 Sample.f_relu)
                        (Sample.ready_mem Sample.p_relu) p ∧
       int_range (input_size p) ∧ int_range (output_size p) ∧
       (∀ x y, inputs (set_local_context 64 Sample.f_relu) !! 0%nat = Some x →
               outputs (set_local_context 64 Sample.f_relu) !! 0%nat = Some y →
          (int_range (shape_product (shape x)) →
           input_size p = shape_product (shape x)) ∧
          (int_range (shape_product (shape y)) →
           output_size p = shape_product (shape y))) ∧
       (∀ st1 e f2 st2,
          relu_context_inv (set_local_context 64 Sample.f_relu) st1 p →
          exec_relu (set_local_context 64 Sample.f_relu) st1 = Some (e, f2, st2) →
          f2 = set_local_context 64 Sample.f_relu ∧ relu_context_inv f2 st2 p).
Proof.
  apply (allocate_relu_context_invariant 64 Sample.f_relu Sample.mem).
  reflexivity.
Defined.

(** C10.  A run of [exec_relu] returns the record it was given (the
    variable bindings, their shapes and [local_context] with it), leaves the
    heap of private contexts as it was, allocates and frees no float cell,
    and changes no float cell outside [output[0 .. output_size)].  When the
    input buffer does not overlap the output buffer, every cell
    [input[i]] keeps its value. *)
Theorem exec_relu_frame (f : rt_function_t) (st : state) (p : relu_private_t)
    (e : rt_function_error_t) (f' : rt_function_t) (st' : state) :
  relu_privates st !! local_context f = Some p →
  exec_relu f st = Some (e, f', st') →
  f' = f ∧
  relu_privates st' = relu_privates st ∧
  (∀ a, is_Some (floats st' !! a) ↔ is_Some (floats st !! a)) ∧
  (∀ a, ¬ (output p ≤ a < output p + output_size p) →
        floats st' !! a = floats st !! a) ∧
  (input p + output_size p ≤ output p ∨ output p + output_size p ≤ input p →
   ∀ i, 0 ≤ i < output_size p →
        floats st' !! (input p + i) = floats st !! (input p + i)).
Proof.
  intros Hp Hrun.
  apply exec_relu_Some in Hrun as (p' & m & Hp' & Hm & -> & -> & ->).
  assert (p' = p) as -> by congruence.
  assert (Hframe : ∀ a, ¬ (output p ≤ a < output p + output_size p) →
                        m !! a = floats st !! a).
  { intros a Ha.
    apply (elementwise_frame relu (input p) (output p) _ _ _ _ Hm). lia. }
  repeat split; try done.
  - by apply (elementwise_allocated relu (input p) (output p) _ _ _ _ Hm).
  - by apply (elementwise_allocated relu (input p) (output p) _ _ _ _ Hm).
  - intros Hapart i Hi. simpl. apply Hframe. lia.
Qed.

Lemma exec_relu_frame_witness :
  ∃ st',
    exec_relu (set_local_context 64 Sample.f_relu) (Sample.ready_mem Sample.p_relu) =
      Some (RT_FUNCTION_ERROR_NOERROR, set_local_context 64 Sample.f_relu, st') ∧
    relu_privates st' = relu_privates (Sample.ready_mem Sample.p_relu) ∧
    (∀ i, 0 ≤ i < 4 →
          floats st' !! (100 + i) = floats (Sample.ready_mem Sample.p_relu) !! (100 + i)).
Proof.
  eexists. split; [reflexivity|].
  destruct (exec_relu_frame (set_local_context 64 Sample.f_relu)
              (Sample.ready_mem Sample.p_relu) Sample.p_relu
              RT_FUNCTION_ERROR_NOERROR _ _ eq_refl eq_refl)
    as (_ & Hctx & _ & _ & Hin).
  split; [exact Hctx|]. apply Hin. left. vm_compute. discriminate.
Defined.

(** ** Scalar arithmetic *)

(** What [calc_scalar] leaves when the output buffer starts one cell into
    the input buffer, and when the product of the dimensions of the output
    does not fit in an [int]. *)
Lemma calc_scalar_shifted_run :
  ∃ st', calc_scalar Sample.f_shifted Sample.two_and_half Sample.pick Sample.mem =
           Some st' ∧
         floats Sample.mem !! 101 = Some Sample.minus_one ∧
         floats st' !! 102 = Some Sample.one.
Proof. eexists. repeat split; reflexivity. Qed.

Lemma calc_scalar_huge_run :
  calc_scalar Sample.f_huge_out Sample.two_and_half Sample.replace Sample.mem =
    Some Sample.mem ∧
  floats Sample.mem !! 100 = Some Sample.one ∧
  floats Sample.mem !! 200 = Some Sample.one.
Proof. repeat split; reflexivity. Qed.

(** C7, as stated, fails, in two ways.  With a 3-cell input at address 100
    and a 3-cell output at address 101, [calc_scalar] leaves in [output[1]]
    the operator applied to what it wrote in [output[0]], not to the
    [input[1]] of before the call.  With an output of shape 65536 x 65536,
    whose product is 4294967296, the [int] count is 0 and [calc_scalar]
    writes nothing. *)
Lemma calc_scalar_counterexample :
  ¬ calc_scalar_as_stated Sample.f_shifted Sample.two_and_half Sample.pick Sample.mem ∧
  shape_product (shape Sample.y_huge) = 4294967296 ∧
  calc_shape_size (shape Sample.y_huge) = 0 ∧
  ¬ calc_scalar_as_stated Sample.f_huge_out Sample.two_and_half Sample.replace Sample.mem.
Proof.
  split; [|split; [reflexivity|split; [reflexivity|]]].
  - intros Hclaim. destruct calc_scalar_shifted_run as (st0 & Hrun0 & Hin & Hout).
    destruct (Hclaim Sample.x3 Sample.y3_shifted st0 eq_refl eq_refl Hrun0 1)
      as (v & Hv & Hy); [vm_compute; split; congruence|].
    change (data Sample.x3 + 1) with 101 in Hv.
    change (data Sample.y3_shifted + 1) with 102 in Hy.
    rewrite Hin in Hv. injection Hv as <-. rewrite Hout in Hy.
    vm_compute in Hy. discriminate Hy.
  - intros Hclaim. destruct calc_scalar_huge_run as (Hrun0 & Hin & Hout).
    destruct (Hclaim Sample.x22 Sample.y_huge Sample.mem eq_refl eq_refl Hrun0 0)
      as (v & Hv & Hy); [vm_compute; split; congruence|].
    change (data Sample.y_huge + 0) with 200 in Hy.
    rewrite Hout in Hy. vm_compute in Hy. discriminate Hy.
Qed.

(** C7, amended.  For every record [f], scalar [value] and binary operator
    [calc_func], with [n] the element count [calc_shape_size] returns for
    the shape of the first output, that is the product of its dimensions
    as an [int], the product itself whenever it is within the range of
    [int]: when the first input and the first output have [n] allocated
    cells each and the output buffer does not start inside the input
    buffer after its first cell (so when it is the input buffer itself,
    and when the two do not overlap), [calc_scalar] completes and leaves
    [calc_func (input[i], value)] in [output[i]] for every [i] in
    [[0, n)]; no other float cell changes and the private contexts are
    untouched. *)
Theorem calc_scalar_elementwise (f : rt_function_t) (value : float)
    (calc_func : float → float → float) (st : state) (x y : rt_variable_t) :
  inputs f !! 0%nat = Some x →
  outputs f !! 0%nat = Some y →
  cells_allocated (data x) (data y) 0 (Z.to_nat (calc_shape_size (shape y))) (floats st) →
  no_forward_overlap (data x) (data y) (calc_shape_size (shape y)) →
  ∃ st', calc_scalar f value calc_func st = Some st' ∧
    (∀ i, 0 ≤ i < calc_shape_size (shape y) →
       ∃ v, floats st !! (data x + i) = Some v ∧
            floats st' !! (data y + i) = Some (calc_func v value)) ∧
    (∀ a, ¬ (data y ≤ a < data y + calc_shape_size (shape y)) →
          floats st' !! a = floats st !! a) ∧
    relu_privates st' = relu_privates st ∧
    (int_range (shape_product (shape y)) →
     calc_shape_size (shape y) = shape_product (shape y)).
Proof.
  intros Hx Hy Hal Hov.
  destruct (elementwise_total (λ v, calc_func v value) _ _ _ _ _ Hal) as [m Hm].
  exists (set_floats m st). unfold calc_scalar. rewrite Hy, Hx. simpl.
  unfold for_loop. rewrite calc_scalar_body_elementwise, Hm. simpl.
  repeat split.
  - intros i Hi.
    apply (elementwise_values _ _ _ _ _ _ _ Hm);
      [by apply no_forward_overlap_no_clobber | lia].
  - intros a Ha. apply (elementwise_frame _ _ _ _ _ _ _ Hm). lia.
  - apply calc_shape_size_product.
Qed.

Lemma calc_scalar_elementwise_witness :
  ∃ st', calc_scalar Sample.f_relu Sample.two_and_half Sample.pick Sample.mem = Some st' ∧
    (∀ i, 0 ≤ i < calc_shape_size (shape Sample.y4) →
       ∃ v, floats Sample.mem !! (data Sample.x22 + i) = Some v ∧
            floats st' !! (data Sample.y4 + i) = Some (Sample.pick v Sample.two_and_half)) ∧
    (∀ a, ¬ (data Sample.y4 ≤ a < data Sample.y4 + calc_shape_size (shape Sample.y4)) →
          floats st' !! a = floats Sample.mem !! a) ∧
    relu_privates st' = relu_privates Sample.mem ∧
    (int_range (shape_product (shape Sample.y4)) →
     calc_shape_size (shape Sample.y4) = shape_product (shape Sample.y4)).
Proof.
  apply (calc_scalar_elementwise Sample.f_relu Sample.two_and_half Sample.pick
           Sample.mem Sample.x22 Sample.y4).
  - reflexivity.
  - reflexivity.
  - apply cells_allocatedb_spec. vm_compute. reflexivity.
  - right. vm_compute. discriminate.
Defined.

(** ** Convolution *)

(** [allocate_convolution_local_context] hands the record to the shared
    helper with the operand slots 0, 1, 2 and the output slot 0, and no
    [ALPHA] slot. *)
Lemma allocate_convolution_slots common f st :
  Convolution.allocate_convolution_local_context common f st =
  common f 0 1 2 (-1) 0 st.
Proof. reflexivity. Qed.

(** C8.  On a record in the Ready state, [exec_convolution] is one call
    through the kernel pointer [k] found in the private context, the
    pointer allocation left there: its outcome is the outcome of the kernel
    that [k] designates, run on the same record and on the entry memory, in
    which only the record of that call has been added.  With a kernel that
    makes no indirect call of its own, the call through [k] is the only one
    the whole execution adds. *)
Theorem exec_convolution_single_call
    (code : Z → option Convolution.entry_point)
    (f : rt_function_t) (st : Convolution.state) (k : Z)
    (kern : Convolution.entry_point) :
  Convolution.ready f st k →
  code k = Some kern →
  Convolution.exec_convolution code f st = kern f (Convolution.record_call k st) ∧
  (∀ e f' st',
     (∀ s e1 f1 s1, kern f s = Some (e1, f1, s1) →
        Convolution.indirect_calls s1 = Convolution.indirect_calls s) →
     Convolution.exec_convolution code f st = Some (e, f', st') →
     Convolution.indirect_calls st' = k :: Convolution.indirect_calls st).
Proof.
  intros (context & p & Hc & Hp & <-) Hk.
  assert (Hrun : Convolution.exec_convolution code f st =
                 kern f (Convolution.record_call (Convolution.exec p) st)).
  { unfold Convolution.exec_convolution, Convolution.call_indirect.
    rewrite Hc. simpl. rewrite Hp. simpl. by rewrite Hk. }
  split; [exact Hrun|].
  intros e f' st' Hsilent Hexec. rewrite Hrun in Hexec.
  by rewrite (Hsilent _ _ _ _ Hexec).
Qed.

Lemma exec_convolution_single_call_witness :
  Convolution.exec_convolution Sample.conv_code Sample.f_conv Sample.conv_mem =
    Sample.conv_kernel Sample.f_conv (Convolution.record_call 7 Sample.conv_mem) ∧
  Convolution.indirect_calls (Convolution.record_call 7 Sample.conv_mem) =
    7 :: Convolution.indirect_calls Sample.conv_mem.
Proof.
  destruct (exec_convolution_single_call Sample.conv_code Sample.f_conv
              Sample.conv_mem 7 Sample.conv_kernel) as [Hrun Hone].
  - exists {| Convolution.private := 48 |}, {| Convolution.exec := 7 |}.
    repeat split; reflexivity.
  - reflexivity.
  - split; [exact Hrun|].
    apply (Hone RT_FUNCTION_ERROR_NOERROR Sample.f_conv).
    + intros s e1 f1 s1 Hs. unfold Sample.conv_kernel in Hs. congruence.
    + reflexivity.
Defined.

(** ** Sum pooling *)






(** * Further properties *)

(** ** The life cycle of a ReLU context *)

Lemma state_eta (st : state) :
  {| floats := floats st; relu_privates := relu_privates st |} = st.
Proof. by destruct st. Qed.

Lemma free_relu_Some f st e f' st' :
  free_relu_local_context f st = Some (e, f', st') ↔
  e = RT_FUNCTION_ERROR_NOERROR ∧ f' = f ∧
  (local_context f = NULL ∧ st' = st ∨
   local_context f ≠ NULL ∧ is_Some (relu_privates st !! local_context f) ∧
   st' = set_relu_privates (delete (local_context f) (relu_privates st)) st).
Proof.
  unfold free_relu_local_context, free_block, NULL. split.
  - case_decide as Hnull; simpl.
    + intros [= <- <- <-]. repeat split. left. split; [done|].
      unfold set_relu_privates. apply state_eta.
    + destruct (relu_privates st !! local_context f) as [p|] eqn:Hp; [|discriminate].
      simpl. intros [= <- <- <-]. repeat split. right. eauto.
  - intros (-> & -> & [[Hnull ->]|(Hnull & [p Hp] & ->)]).
    + rewrite decide_True by done. simpl. unfold set_relu_privates.
      by rewrite state_eta.
    + rewrite decide_False by done. by rewrite Hp.
Qed.

(** X1.  Allocation followed by release gives the memory back.  Starting from a
    record whose [local_context] is [NULL] and with [malloc] returning
    either [NULL] or an unused address, whatever status
    [allocate_relu_local_context] returns, [free_relu_local_context] on the
    resulting record succeeds and restores the memory exactly; nothing stays
    allocated, the [RT_FUNCTION_ERROR_INVALID_SHAPE] case included. *)
Theorem allocate_free_relu_restores (m : Z) (f : rt_function_t) (st : state)
    (err : rt_function_error_t) (f' : rt_function_t) (st' : state) :
  local_context f = NULL →
  relu_privates st !! m = None →
  allocate_relu_local_context m f st = Some (err, f', st') →
  free_relu_local_context f' st' = Some (RT_FUNCTION_ERROR_NOERROR, f', st).
Proof.
  intros Hnull Hfresh Hrun. apply free_relu_Some.
  apply allocate_relu_inv in Hrun
    as [(_ & _ & -> & ->)|[(_ & _ & _ & -> & ->)|[(_ & _ & _ & _ & -> & ->)|
        (x & y & _ & _ & Hm & _ & _ & -> & -> & _)]]];
    (repeat split; [auto]).
  right. simpl. rewrite lookup_insert_eq. repeat split; [done|eauto|].
  unfold set_relu_privates. simpl. rewrite delete_insert_id by done.
  by rewrite state_eta.
Qed.

Lemma allocate_free_relu_restores_witness :
  free_relu_local_context (set_local_context 64 Sample.f_bad_shape)
    (Sample.ready_mem Sample.p_bad_shape) =
  Some (RT_FUNCTION_ERROR_NOERROR, set_local_context 64 Sample.f_bad_shape, Sample.mem).
Proof.
  apply (allocate_free_relu_restores 64 Sample.f_bad_shape Sample.mem
           RT_FUNCTION_ERROR_INVALID_SHAPE); reflexivity.
Defined.

(** X2.  [free_relu_local_context] does not reset the pointer of the record.
    Once a context that allocation stored has been released, releasing it
    again and executing the operator are both undefined. *)
Theorem relu_use_after_free (m : Z) (f : rt_function_t) (st : state)
    (err : rt_function_error_t) (f1 : rt_function_t) (st1 : state)
    (e : rt_function_error_t) (f2 : rt_function_t) (st2 : state) :
  allocate_relu_local_context m f st = Some (err, f1, st1) →
  err = RT_FUNCTION_ERROR_NOERROR ∨ err = RT_FUNCTION_ERROR_INVALID_SHAPE →
  free_relu_local_context f1 st1 = Some (e, f2, st2) →
  local_context f2 = m ∧ m ≠ NULL ∧
  free_relu_local_context f2 st2 = None ∧
  exec_relu f2 st2 = None.
Proof.
  intros Hrun Herr Hfree.
  apply allocate_relu_inv in Hrun
    as [(-> & _)|[(-> & _)|[(-> & _)|
        (x & y & _ & _ & Hm & _ & _ & -> & -> & _)]]];
    try (destruct Herr; discriminate).
  apply free_relu_Some in Hfree as (_ & -> & [[Hnull _]|(_ & _ & ->)]);
    [done|].
  simpl. repeat split; [done|..].
  - unfold free_relu_local_context, free_block. simpl.
    rewrite decide_False by done. by rewrite lookup_delete_eq.
  - unfold exec_relu. simpl. by rewrite lookup_delete_eq.
Qed.

Lemma relu_use_after_free_witness :
  local_context (set_local_context 64 Sample.f_relu) = 64 ∧ 64 ≠ NULL ∧
  free_relu_local_context (set_local_context 64 Sample.f_relu) Sample.mem = None ∧
  exec_relu (set_local_context 64 Sample.f_relu) Sample.mem = None.
Proof.
  apply (relu_use_after_free 64 Sample.f_relu Sample.mem
           RT_FUNCTION_ERROR_NOERROR (set_local_context 64 Sample.f_relu)
           (Sample.ready_mem Sample.p_relu) RT_FUNCTION_ERROR_NOERROR);
    [reflexivity | by left | reflexivity].
Defined.

(** X3.  What [free_relu_local_context] touches: it returns
    [RT_FUNCTION_ERROR_NOERROR] and the record it was given, leaves every
    float cell and every other private context as they were, and, for a
    pointer other than [NULL], requires the context to be allocated and
    leaves its address unallocated. *)
Theorem free_relu_frame (f : rt_function_t) (st : state)
    (e : rt_function_error_t) (f' : rt_function_t) (st' : state) :
  free_relu_local_context f st = Some (e, f', st') →
  e = RT_FUNCTION_ERROR_NOERROR ∧ f' = f ∧
  floats st' = floats st ∧
  (∀ a, a ≠ local_context f → relu_privates st' !! a = relu_privates st !! a) ∧
  (local_context f ≠ NULL →
   is_Some (relu_privates st !! local_context f) ∧
   relu_privates st' !! local_context f = None).
Proof.
  intros Hfree.
  apply free_relu_Some in Hfree as (-> & -> & [[Hnull ->]|(Hnn & Hp & ->)]);
    repeat split; try done; simpl.
  - intros a Ha. by rewrite lookup_delete_ne.
  - apply lookup_delete_eq.
Qed.

Lemma free_relu_frame_witness :
  RT_FUNCTION_ERROR_NOERROR = RT_FUNCTION_ERROR_NOERROR ∧
  set_local_context 64 Sample.f_relu = set_local_context 64 Sample.f_relu ∧
  floats Sample.mem = floats (Sample.ready_mem Sample.p_relu) ∧
  (∀ a, a ≠ local_context (set_local_context 64 Sample.f_relu) →
        relu_privates Sample.mem !! a =
        relu_privates (Sample.ready_mem Sample.p_relu) !! a) ∧
  (local_context (set_local_context 64 Sample.f_relu) ≠ NULL →
   is_Some (relu_privates (Sample.ready_mem Sample.p_relu)
              !! local_context (set_local_context 64 Sample.f_relu)) ∧
   relu_privates Sample.mem !! local_context (set_local_context 64 Sample.f_relu) = None).
Proof.
  apply (free_relu_frame (set_local_context 64 Sample.f_relu)
           (Sample.ready_mem Sample.p_relu)).
  reflexivity.
Defined.

(** X4.  What [allocate_relu_local_context] touches, whatever it returns: no
    float cell, no private context other than the block [malloc] returned,
    and in the record only [local_context], which keeps its value or becomes
    that block. *)
Theorem allocate_relu_frame (m : Z) (f : rt_function_t) (st : state)
    (err : rt_function_error_t) (f' : rt_function_t) (st' : state) :
  allocate_relu_local_context m f st = Some (err, f', st') →
  floats st' = floats st ∧
  (∀ a, a ≠ m → relu_privates st' !! a = relu_privates st !! a) ∧
  num_of_inputs f' = num_of_inputs f ∧ inputs f' = inputs f ∧
  num_of_outputs f' = num_of_outputs f ∧ outputs f' = outputs f ∧
  (local_context f' = local_context f ∧ st' = st ∨
   local_context f' = m ∧ m ≠ NULL ∧ is_Some (relu_privates st' !! m)).
Proof.
  intros Hrun.
  apply allocate_relu_inv in Hrun
    as [(_ & _ & -> & ->)|[(_ & _ & _ & -> & ->)|[(_ & _ & _ & _ & -> & ->)|
        (x & y & _ & _ & Hm & _ & _ & -> & -> & _)]]];
    repeat split; auto.
  - intros a Ha. simpl. by rewrite lookup_insert_ne.
  - right. simpl. rewrite lookup_insert_eq. eauto.
Qed.

Lemma allocate_relu_frame_witness :
  floats (Sample.ready_mem Sample.p_relu) = floats Sample.mem ∧
  (∀ a, a ≠ 64 →
        relu_privates (Sample.ready_mem Sample.p_relu) !! a =
        relu_privates Sample.mem !! a) ∧
  num_of_inputs (set_local_context 64 Sample.f_relu) = num_of_inputs Sample.f_relu ∧
  inputs (set_local_context 64 Sample.f_relu) = inputs Sample.f_relu ∧
  num_of_outputs (set_local_context 64 Sample.f_relu) = num_of_outputs Sample.f_relu ∧
  outputs (set_local_context 64 Sample.f_relu) = outputs Sample.f_relu ∧
  (local_context (set_local_context 64 Sample.f_relu) = local_context Sample.f_relu ∧
   Sample.ready_mem Sample.p_relu = Sample.mem ∨
   local_context (set_local_context 64 Sample.f_relu) = 64 ∧ 64 ≠ NULL ∧
   is_Some (relu_privates (Sample.ready_mem Sample.p_relu) !! 64)).
Proof.
  apply (allocate_relu_frame 64 Sample.f_relu Sample.mem RT_FUNCTION_ERROR_NOERROR).
  reflexivity.
Defined.

(** X5.  Allocation succeeds in exactly one situation: one input and one
    output are declared, [malloc] returned a block, the first input and the
    first output are bound, and their element counts agree. *)
Theorem allocate_relu_succeeds_iff (m : Z) (f : rt_function_t) (st : state) :
  (∃ f' st', allocate_relu_local_context m f st =
               Some (RT_FUNCTION_ERROR_NOERROR, f', st')) ↔
  num_of_inputs f = 1 ∧ num_of_outputs f = 1 ∧ m ≠ NULL ∧
  ∃ x y, inputs f !! 0%nat = Some x ∧ outputs f !! 0%nat = Some y ∧
         calc_shape_size (shape x) = calc_shape_size (shape y).
Proof.
  split.
  - intros (f' & st' & Hrun).
    apply allocate_relu_inv in Hrun
      as [(? & _)|[(? & _)|[(? & _)|
          (x & y & Hin & Hout & Hm & Hx & Hy & _ & _ & [[? _]|[_ Hsz]])]]];
      try discriminate.
    eauto 10.
  - intros (Hin & Hout & Hm & x & y & Hx & Hy & Hsz).
    unfold allocate_relu_local_context.
    rewrite !decide_False by (unfold NULL in Hm; lia).
    simpl. rewrite Hx, Hy. simpl. rewrite decide_False by (simpl; lia). eauto.
Qed.

Lemma allocate_relu_succeeds_iff_witness :
  ∃ f' st', allocate_relu_local_context 64 Sample.f_relu Sample.mem =
              Some (RT_FUNCTION_ERROR_NOERROR, f', st').
Proof.
  apply (proj2 (allocate_relu_succeeds_iff 64 Sample.f_relu Sample.mem)).
  repeat split; [vm_compute; discriminate|].
  exists Sample.x22, Sample.y4. repeat split; reflexivity.
Defined.

(** X6.  Allocating twice loses the first context.  After a successful
    allocation, a second allocation on the same record with a new block
    succeeds as well and makes [local_context] designate the new block; the
    first block still holds its context, the record no longer designates
    it, and it stays allocated after [free_relu_local_context]. *)
Theorem allocate_relu_twice_leaks (m1 m2 : Z) (f : rt_function_t) (st : state)
    (f1 : rt_function_t) (st1 : state)
    (e2 : rt_function_error_t) (f2 : rt_function_t) (st2 : state) :
  allocate_relu_local_context m1 f st = Some (RT_FUNCTION_ERROR_NOERROR, f1, st1) →
  m2 ≠ NULL → m2 ≠ m1 →
  allocate_relu_local_context m2 f1 st1 = Some (e2, f2, st2) →
  e2 = RT_FUNCTION_ERROR_NOERROR ∧ local_context f2 = m2 ∧
  is_Some (relu_privates st2 !! m1) ∧
  relu_privates st2 !! m1 = relu_privates st2 !! m2 ∧
  ∃ st3, free_relu_local_context f2 st2 = Some (RT_FUNCTION_ERROR_NOERROR, f2, st3) ∧
         is_Some (relu_privates st3 !! m1) ∧ relu_privates st3 !! m2 = None.
Proof.
  intros Hrun1 Hm2 Hne Hrun2.
  apply allocate_relu_inv in Hrun1
    as [(? & _)|[(? & _)|[(? & _)|
        (x & y & Hin & Hout & Hm1 & Hx & Hy & -> & -> & [[? _]|[_ Hsz]])]]];
    try discriminate.
  apply allocate_relu_inv in Hrun2
    as [(_ & ? & _)|[(_ & _ & ? & _)|[(_ & _ & _ & ? & _)|
        (x' & y' & _ & _ & _ & Hx' & Hy' & -> & -> & [[_ Hsz']|[-> _]])]]];
    try done; simpl in Hx', Hy';
    assert (x' = x) as -> by congruence; assert (y' = y) as -> by congruence;
    [done|].
  simpl. rewrite lookup_insert_eq, lookup_insert_ne, lookup_insert_eq by done.
  repeat split; [eauto|].
  eexists. split.
  - apply free_relu_Some. repeat split. right. simpl.
    rewrite lookup_insert_eq. eauto.
  - simpl. rewrite lookup_delete_ne, lookup_insert_ne, lookup_insert_eq by done.
    rewrite lookup_delete_eq. eauto.
Qed.

Lemma allocate_relu_twice_leaks_witness :
  RT_FUNCTION_ERROR_NOERROR = RT_FUNCTION_ERROR_NOERROR ∧
  local_context (set_local_context 96 Sample.f_relu) = 96 ∧
  is_Some (relu_privates
             (set_relu_privates (<[96 := Sample.p_relu]> {[ 64 := Sample.p_relu ]})
                Sample.mem) !! 64) ∧
  relu_privates
    (set_relu_privates (<[96 := Sample.p_relu]> {[ 64 := Sample.p_relu ]}) Sample.mem)
    !! 64 =
  relu_privates
    (set_relu_privates (<[96 := Sample.p_relu]> {[ 64 := Sample.p_relu ]}) Sample.mem)
    !! 96 ∧
  ∃ st3,
    free_relu_local_context (set_local_context 96 Sample.f_relu)
      (set_relu_privates (<[96 := Sample.p_relu]> {[ 64 := Sample.p_relu ]}) Sample.mem) =
      Some (RT_FUNCTION_ERROR_NOERROR, set_local_context 96 Sample.f_relu, st3) ∧
    is_Some (relu_privates st3 !! 64) ∧ relu_privates st3 !! 96 = None.
Proof.
  apply (allocate_relu_twice_leaks 64 96 Sample.f_relu Sample.mem
           (set_local_context 64 Sample.f_relu) (Sample.ready_mem Sample.p_relu)
           RT_FUNCTION_ERROR_NOERROR).
  - reflexivity.
  - vm_compute. discriminate.
  - vm_compute. discriminate.
  - reflexivity.
Defined.

(** ** More on elementwise loops *)

Lemma elementwise_defined g inp out k : ∀ i m m',
  for_upto k i (elementwise_body g inp out) m = Some m' →
  cells_allocated inp out i k m.
Proof.
  induction k as [|k IH]; intros i m m' Hrun j Hj; simpl in Hrun; [lia|].
  destruct (elementwise_body g inp out i m) as [m1|] eqn:Hb; [|discriminate].
  simpl in Hrun.
  apply elementwise_body_Some in Hb as (x & Hx & Ho & ->).
  destruct (decide (j = i)) as [->|Hne]; [eauto|].
  destruct (IH _ _ _ Hrun j ltac:(lia)) as [Hi Hj'].
  rewrite lookup_insert_is_Some in Hi, Hj'.
  split; [destruct Hi as [<-|[_ ?]]|destruct Hj' as [<-|[_ ?]]]; done.
Qed.

Lemma elementwise_defined_iff g inp out k i m :
  is_Some (for_upto k i (elementwise_body g inp out) m) ↔
  cells_allocated inp out i k m.
Proof.
  split; [intros [m' Hm']; by eapply elementwise_defined|].
  apply elementwise_total.
Qed.

(** Every cell of the output range ends up holding an image of [g],
    whatever the layout of the two buffers. *)
Lemma elementwise_image g inp out k : ∀ i m m',
  for_upto k i (elementwise_body g inp out) m = Some m' →
  ∀ j, i ≤ j < i + Z.of_nat k → ∃ x, m' !! (out + j) = Some (g x).
Proof.
  induction k as [|k IH]; intros i m m' Hrun j Hj; simpl in Hrun; [lia|].
  destruct (elementwise_body g inp out i m) as [m1|] eqn:Hb; [|discriminate].
  simpl in Hrun.
  apply elementwise_body_Some in Hb as (x & Hx & Ho & ->).
  destruct (decide (j = i)) as [->|Hne].
  - exists x. rewrite (elementwise_frame _ _ _ _ _ _ _ Hrun) by lia.
    apply lookup_insert_eq.
  - apply (IH _ _ _ Hrun). lia.
Qed.

Lemma in_range_offset (out a : Z) (k : nat) :
  out + 0 ≤ a < out + 0 + Z.of_nat k → ∃ j, 0 ≤ j < 0 + Z.of_nat k ∧ a = out + j.
Proof. intros Ha. exists (a - out). lia. Qed.

(** With buffers that do not overlap, a second run changes nothing. *)
Lemma elementwise_rerun_apart g inp out k m m1 :
  (inp + Z.of_nat k ≤ out ∨ out + Z.of_nat k ≤ inp) →
  for_upto k 0 (elementwise_body g inp out) m = Some m1 →
  for_upto k 0 (elementwise_body g inp out) m1 = Some m1.
Proof.
  intros Hapart Hrun.
  assert (Hnc : no_clobber inp out 0 k) by (intros j' j ? ? ?; lia).
  destruct (elementwise_total g inp out k 0 m1) as [m2 Hrun2].
  { intros j Hj. destruct (elementwise_defined _ _ _ _ _ _ _ Hrun j Hj).
    split; by apply (elementwise_allocated _ _ _ _ _ _ _ Hrun). }
  rewrite Hrun2. f_equal. apply map_eq. intros a.
  destruct (decide (out + 0 ≤ a < out + 0 + Z.of_nat k)) as [Ha|Ha].
  - apply in_range_offset in Ha as (j & Hj & ->).
    destruct (elementwise_values _ _ _ _ _ _ _ Hrun Hnc j Hj) as (x & Hx & ->).
    destruct (elementwise_values _ _ _ _ _ _ _ Hrun2 Hnc j Hj) as (x' & Hx' & ->).
    rewrite (elementwise_frame _ _ _ _ _ _ _ Hrun) in Hx' by lia. congruence.
  - by apply (elementwise_frame _ _ _ _ _ _ _ Hrun2).
Qed.

(** In place, two loops in a row are one loop with the composed
    function. *)
Lemma elementwise_compose_in_place g1 g2 b k m m1 :
  for_upto k 0 (elementwise_body g1 b b) m = Some m1 →
  for_upto k 0 (elementwise_body g2 b b) m1 =
  for_upto k 0 (elementwise_body (λ x, g2 (g1 x)) b b) m.
Proof.
  intros Hrun.
  assert (Hnc : no_clobber b b 0 k) by (intros j' j ? ? ?; lia).
  pose proof (elementwise_defined _ _ _ _ _ _ _ Hrun) as Hal.
  destruct (elementwise_total g2 b b k 0 m1) as [m2 Hrun2].
  { intros j Hj. destruct (Hal j Hj).
    split; by apply (elementwise_allocated _ _ _ _ _ _ _ Hrun). }
  destruct (elementwise_total (λ x, g2 (g1 x)) b b k 0 m Hal) as [m3 Hrun3].
  rewrite Hrun2, Hrun3. f_equal. apply map_eq. intros a.
  destruct (decide (b + 0 ≤ a < b + 0 + Z.of_nat k)) as [Ha|Ha].
  - apply in_range_offset in Ha as (j & Hj & ->).
    destruct (elementwise_values _ _ _ _ _ _ _ Hrun Hnc j Hj) as (x & Hx & Hx1).
    destruct (elementwise_values _ _ _ _ _ _ _ Hrun2 Hnc j Hj) as (x' & Hx' & ->).
    destruct (elementwise_values _ _ _ _ _ _ _ Hrun3 Hnc j Hj) as (x'' & Hx'' & ->).
    congruence.
  - rewrite (elementwise_frame _ _ _ _ _ _ _ Hrun2) by done.
    rewrite (elementwise_frame _ _ _ _ _ _ _ Hrun3) by done.
    by apply (elementwise_frame _ _ _ _ _ _ _ Hrun).
Qed.

Lemma relu_value_relu x : relu_value (relu x).
Proof.
  split; [apply relu_not_nan|]. split; [|split; [|apply relu_idempotent]].
  - destruct (relu_cases x) as [[-> Hgt]|[-> _]]; [|done].
    destruct x as [s|s| |s mx ex]; try destruct s; done.
  - destruct (relu_cases x) as [[-> Hgt]|[-> _]]; [|done].
    by intros ->.
Qed.

(** ** More on [exec_relu] *)

(** X7.  [exec_relu] has a defined outcome exactly when [local_context]
    designates an allocated context and the cells [input[i]] and
    [output[i]] are allocated for every [i] below [output_size]: a missing
    context or a buffer that is too short is undefined behaviour, and
    nothing else is. *)
Theorem exec_relu_defined_iff (f : rt_function_t) (st : state) :
  is_Some (exec_relu f st) ↔
  ∃ p, relu_privates st !! local_context f = Some p ∧
       cells_allocated (input p) (output p) 0 (Z.to_nat (output_size p)) (floats st).
Proof.
  split.
  - intros [[[e f'] st'] Hrun].
    apply exec_relu_Some in Hrun as (p & m & Hp & Hm & _).
    exists p. split; [done|].
    by apply (elementwise_defined relu (input p) (output p) _ _ _ _ Hm).
  - intros (p & Hp & Hal).
    destruct (elementwise_total relu _ _ _ _ _ Hal) as [m Hm].
    exists (RT_FUNCTION_ERROR_NOERROR, f, set_floats m st).
    apply exec_relu_Some. eauto 10.
Qed.

Lemma exec_relu_defined_iff_witness :
  is_Some (exec_relu (set_local_context 64 Sample.f_relu)
             (Sample.ready_mem Sample.p_relu)) ∧
  ¬ is_Some (exec_relu (set_local_context 64 Sample.f_relu)
               (set_relu_privates {[ 64 := Sample.p_relu ]} Sample.no_floats)).
Proof.
  split.
  - apply (proj2 (exec_relu_defined_iff (set_local_context 64 Sample.f_relu)
                    (Sample.ready_mem Sample.p_relu))).
    exists Sample.p_relu. split; [reflexivity|].
    apply cells_allocatedb_spec. vm_compute. reflexivity.
  - intros [r Hr]. vm_compute in Hr. discriminate Hr.
Defined.

(** X8.  Whatever the input holds and however the buffers are laid out, after
    [exec_relu] every cell [output[i]], [i] below [output_size], holds a
    float that is not NaN, is not below zero, is not the negative zero, and
    that ReLU maps to itself. *)
Theorem exec_relu_output_values (f : rt_function_t) (st : state) (p : relu_private_t)
    (e : rt_function_error_t) (f' : rt_function_t) (st' : state) :
  relu_privates st !! local_context f = Some p →
  exec_relu f st = Some (e, f', st') →
  ∀ i, 0 ≤ i < output_size p →
    ∃ y, floats st' !! (output p + i) = Some y ∧ relu_value y.
Proof.
  intros Hp Hrun i Hi.
  apply exec_relu_Some in Hrun as (p' & m & Hp' & Hm & _ & _ & ->).
  assert (p' = p) as -> by congruence.
  destruct (elementwise_image relu (input p) (output p) _ _ _ _ Hm i) as [x Hx];
    [lia|].
  exists (relu x). split; [exact Hx|apply relu_value_relu].
Qed.

Lemma exec_relu_output_values_witness :
  ∃ st', exec_relu (set_local_context 64 Sample.f_relu)
           (Sample.ready_mem Sample.p_shifted) =
           Some (RT_FUNCTION_ERROR_NOERROR, set_local_context 64 Sample.f_relu, st') ∧
         ∀ i, 0 ≤ i < 3 → ∃ y, floats st' !! (101 + i) = Some y ∧ relu_value y.
Proof.
  eexists. split; [reflexivity|].
  apply (exec_relu_output_values (set_local_context 64 Sample.f_relu)
           (Sample.ready_mem Sample.p_shifted) Sample.p_shifted
           RT_FUNCTION_ERROR_NOERROR (set_local_context 64 Sample.f_relu));
    reflexivity.
Defined.

(** X9.  With an input buffer and an output buffer that do not overlap,
    [exec_relu] can be called again on the same data: the second call
    returns the same status and leaves the memory as the first call left
    it. *)
Theorem exec_relu_rerun_apart (f : rt_function_t) (st : state) (p : relu_private_t)
    (e : rt_function_error_t) (f1 : rt_function_t) (st1 : state) :
  relu_privates st !! local_context f = Some p →
  apart (input p) (output p) (output_size p) →
  exec_relu f st = Some (e, f1, st1) →
  exec_relu f1 st1 = Some (e, f1, st1).
Proof.
  intros Hp Hapart Hrun.
  apply exec_relu_Some in Hrun as (p' & m & Hp' & Hm & -> & -> & ->).
  assert (p' = p) as -> by congruence.
  apply exec_relu_Some. exists p, m. repeat split; [done|].
  unfold for_loop in *. simpl.
  apply (elementwise_rerun_apart relu (input p) (output p) _ (floats st)); [|done].
  unfold apart in Hapart. lia.
Qed.

Lemma exec_relu_rerun_apart_witness :
  ∃ st1,
    exec_relu (set_local_context 64 Sample.f_relu) (Sample.ready_mem Sample.p_relu) =
      Some (RT_FUNCTION_ERROR_NOERROR, set_local_context 64 Sample.f_relu, st1) ∧
    exec_relu (set_local_context 64 Sample.f_relu) st1 =
      Some (RT_FUNCTION_ERROR_NOERROR, set_local_context 64 Sample.f_relu, st1).
Proof.
  eexists. split; [reflexivity|].
  apply (exec_relu_rerun_apart (set_local_context 64 Sample.f_relu)
           (Sample.ready_mem Sample.p_relu) Sample.p_relu).
  - reflexivity.
  - left. vm_compute. discriminate.
  - reflexivity.
Defined.

(** X10.  An empty tensor: when the cached [output_size] is zero or negative,
    [exec_relu] succeeds without touching the memory, even when no cell of
    the two buffers is allocated. *)
Theorem exec_relu_empty (f : rt_function_t) (st : state) (p : relu_private_t) :
  relu_privates st !! local_context f = Some p →
  output_size p ≤ 0 →
  exec_relu f st = Some (RT_FUNCTION_ERROR_NOERROR, f, st).
Proof.
  intros Hp Hn. apply exec_relu_Some. exists p, (floats st).
  repeat split; [done|..].
  - unfold for_loop. by rewrite Z2Nat.nonpos.
  - unfold set_floats. by rewrite state_eta.
Qed.

Lemma exec_relu_empty_witness :
  exec_relu (set_local_context 64 Sample.f_empty)
    (set_relu_privates
       {[ 64 := {| input := 100; input_size := 4; output := 200; output_size := 0 |} ]}
       Sample.no_floats) =
  Some (RT_FUNCTION_ERROR_NOERROR, set_local_context 64 Sample.f_empty,
        set_relu_privates
          {[ 64 := {| input := 100; input_size := 4; output := 200; output_size := 0 |} ]}
          Sample.no_floats).
Proof.
  apply (exec_relu_empty _ _
           {| input := 100; input_size := 4; output := 200; output_size := 0 |}).
  - reflexivity.
  - vm_compute. discriminate.
Defined.

(** ** More on [calc_scalar] *)

Lemma calc_scalar_Some f value calc_func st st' :
  calc_scalar f value calc_func st = Some st' ↔
  ∃ x y m, inputs f !! 0%nat = Some x ∧ outputs f !! 0%nat = Some y ∧
    for_upto (Z.to_nat (calc_shape_size (shape y))) 0
      (elementwise_body (λ a, calc_func a value) (data x) (data y)) (floats st) = Some m ∧
    st' = set_floats m st.
Proof.
  unfold calc_scalar, for_loop. split.
  - destruct (outputs f !! 0%nat) as [y|]; [|discriminate]. simpl.
    destruct (inputs f !! 0%nat) as [x|]; [|discriminate]. simpl.
    rewrite calc_scalar_body_elementwise.
    destruct (for_upto _ _ _ _) as [m|] eqn:Hm; [|discriminate].
    simpl. intros [= <-]. eauto 10.
  - intros (x & y & m & -> & -> & Hm & ->). simpl.
    rewrite calc_scalar_body_elementwise, Hm. reflexivity.
Qed.

(** X11.  [calc_scalar] checks nothing.  It has a defined outcome exactly when
    the first input and the first output are bound and the cells
    [input[i]] and [output[i]] are allocated for every [i] below the
    element count of the output: the size of the input, the declared
    numbers of operands and the private context play no part. *)
Theorem calc_scalar_defined_iff (f : rt_function_t) (value : float)
    (calc_func : float → float → float) (st : state) :
  is_Some (calc_scalar f value calc_func st) ↔
  ∃ x y, inputs f !! 0%nat = Some x ∧ outputs f !! 0%nat = Some y ∧
         cells_allocated (data x) (data y) 0
           (Z.to_nat (calc_shape_size (shape y))) (floats st).
Proof.
  split.
  - intros [st' Hrun]. apply calc_scalar_Some in Hrun as (x & y & m & Hx & Hy & Hm & _).
    exists x, y. repeat split; [done..| |];
      by destruct (elementwise_defined _ _ _ _ _ _ _ Hm j).
  - intros (x & y & Hx & Hy & Hal).
    destruct (elementwise_total (λ a, calc_func a value) _ _ _ _ _ Hal) as [m Hm].
    exists (set_floats m st). apply calc_scalar_Some. eauto 10.
Qed.

Lemma calc_scalar_defined_iff_witness :
  is_Some (calc_scalar Sample.f_relu Sample.two_and_half Sample.pick Sample.mem) ∧
  ¬ is_Some (calc_scalar Sample.f_relu Sample.two_and_half Sample.pick Sample.no_floats).
Proof.
  split.
  - apply (proj2 (calc_scalar_defined_iff Sample.f_relu Sample.two_and_half
                    Sample.pick Sample.mem)).
    exists Sample.x22, Sample.y4. repeat split; [reflexivity..| |];
      by apply (cells_allocatedb_spec 100 200 0 4 (floats Sample.mem)); [vm_compute|].
  - intros [r Hr]. vm_compute in Hr. discriminate Hr.
Defined.

(** X12.  [exec_relu] is [calc_scalar] with the ReLU strategy.  On a record
    whose private context satisfies the invariant allocation establishes,
    [exec_relu] does to the memory what [calc_scalar] does with an operator
    that ignores the scalar and applies ReLU, and it is undefined exactly
    when [calc_scalar] is. *)
Theorem exec_relu_as_calc_scalar (f : rt_function_t) (st : state) (p : relu_private_t)
    (value : float) :
  relu_context_inv f st p →
  exec_relu f st =
  (st' ← calc_scalar f value (λ x _, relu x) st;
   Some (RT_FUNCTION_ERROR_NOERROR, f, st')).
Proof.
  intros (Hctx & x & y & Hx & Hy & Hi & _ & Ho & Hos & _).
  unfold exec_relu, calc_scalar. rewrite Hctx, Hy, Hx. simpl.
  rewrite exec_relu_body_elementwise, calc_scalar_body_elementwise.
  rewrite Hi, Ho, Hos.
  by destruct (for_loop _ _ _).
Qed.

Lemma exec_relu_as_calc_scalar_witness :
  exec_relu (set_local_context 64 Sample.f_relu) (Sample.ready_mem Sample.p_relu) =
  (st' ← calc_scalar (set_local_context 64 Sample.f_relu) Sample.one
           (λ x _, relu x) (Sample.ready_mem Sample.p_relu);
   Some (RT_FUNCTION_ERROR_NOERROR, set_local_context 64 Sample.f_relu, st')).
Proof.
  apply (exec_relu_as_calc_scalar (set_local_context 64 Sample.f_relu)
           (Sample.ready_mem Sample.p_relu) Sample.p_relu Sample.one).
  split; [reflexivity|]. exists Sample.x22, Sample.y4. repeat split; reflexivity.
Defined.

(** X13.  In place, two scalar operations in a row are one.  When the first
    input and the first output share their buffer, running [calc_scalar]
    with [calc_func1] and [value1] and then with [calc_func2] and [value2]
    gives the outcome of a single run with the composed operator. *)
Theorem calc_scalar_compose_in_place (f : rt_function_t)
    (value1 value2 : float) (calc_func1 calc_func2 : float → float → float)
    (st st1 : state) (x y : rt_variable_t) :
  inputs f !! 0%nat = Some x →
  outputs f !! 0%nat = Some y →
  data x = data y →
  calc_scalar f value1 calc_func1 st = Some st1 →
  calc_scalar f value2 calc_func2 st1 =
  calc_scalar f value2 (λ a v, calc_func2 (calc_func1 a value1) v) st.
Proof.
  intros Hx Hy Hsame Hrun.
  apply calc_scalar_Some in Hrun as (x' & y' & m & Hx' & Hy' & Hm & ->).
  assert (x' = x) as -> by congruence. assert (y' = y) as -> by congruence.
  rewrite Hsame in Hm.
  pose proof (elementwise_compose_in_place _ (λ a, calc_func2 a value2) _ _ _ _ Hm)
    as Hcomp.
  unfold calc_scalar, for_loop. rewrite Hy, Hx. simpl.
  rewrite !calc_scalar_body_elementwise, Hsame, Hcomp.
  by destruct (for_upto _ _ _ _).
Qed.

Lemma calc_scalar_compose_in_place_witness :
  ∃ st1,
    calc_scalar Sample.f_inplace Sample.two_and_half Sample.pick Sample.mem = Some st1 ∧
    calc_scalar Sample.f_inplace Sample.one Sample.replace st1 =
    calc_scalar Sample.f_inplace Sample.one
      (λ a v, Sample.replace (Sample.pick a Sample.two_and_half) v) Sample.mem.
Proof.
  eexists. split; [reflexivity|].
  apply (calc_scalar_compose_in_place Sample.f_inplace Sample.two_and_half Sample.one
           Sample.pick Sample.replace Sample.mem _ Sample.x22 Sample.x22);
    reflexivity.
Defined.

(** ** More on the convolution and pooling entry points *)

(** X14.  [exec_convolution] adds no status of its own.  It returns an outcome
    exactly when the record's local context and private context are
    allocated and the stored pointer designates a kernel, and the outcome,
    error statuses included, is then the kernel's; a record that was never
    allocated, or a pointer that designates no code, is undefined
    behaviour. *)
Theorem exec_convolution_defined_iff
    (code : Z → option Convolution.entry_point)
    (f : rt_function_t) (st : Convolution.state)
    (r : rt_function_error_t * rt_function_t * Convolution.state) :
  Convolution.exec_convolution code f st = Some r ↔
  ∃ k kern, Convolution.ready f st k ∧ code k = Some kern ∧
            kern f (Convolution.record_call k st) = Some r.
Proof.
  unfold Convolution.exec_convolution, Convolution.call_indirect, Convolution.ready.
  split.
  - destruct (Convolution.contexts st !! local_context f) as [c|] eqn:Hc;
      [|discriminate].
    simpl. destruct (Convolution.privates st !! Convolution.private c) as [p|] eqn:Hp;
      [|discriminate].
    simpl. destruct (code (Convolution.exec p)) as [kern|] eqn:Hk; [|discriminate].
    simpl. intros Hr. exists (Convolution.exec p), kern. eauto 10.
  - intros (k & kern & (c & p & -> & Hp & <-) & Hk & Hr). simpl.
    rewrite Hp. simpl. by rewrite Hk.
Qed.

Lemma exec_convolution_defined_iff_witness :
  Convolution.exec_convolution Sample.conv_code Sample.f_conv Sample.conv_mem =
    Some (RT_FUNCTION_ERROR_NOERROR, Sample.f_conv,
          Convolution.record_call 7 Sample.conv_mem).
Proof.
  apply (proj2 (exec_convolution_defined_iff Sample.conv_code Sample.f_conv
                  Sample.conv_mem _)).
  exists 7, Sample.conv_kernel. repeat split.
  exists {| Convolution.private := 48 |}, {| Convolution.exec := 7 |}.
  repeat split; reflexivity.
Defined.

(** X15.  [allocate_sum_pooling_local_context] stores the block in every case.
    Whatever [malloc] returned and whatever status the helper
    [allocate_pooling] reports, an error included, the status is passed on
    unchanged and the pointer is written into the [private] field of the
    local context; no other local context and no private object is
    touched after the helper returns. *)
Theorem allocate_sum_pooling_stores_private {P : Type}
    (allocate_pooling : SumPooling.allocate_pooling_t P) (m : Z)
    (f : rt_function_t) (st : SumPooling.state P)
    (ret : rt_function_error_t) (f' : rt_function_t) (st' : SumPooling.state P) :
  SumPooling.allocate_sum_pooling_local_context allocate_pooling m f st =
    Some (ret, f', st') →
  ∃ st1 c,
    allocate_pooling f (local_context f) m (SumPooling.malloc_block m st) =
      Some (ret, f', st1) ∧
    SumPooling.contexts st1 !! local_context f' = Some c ∧
    SumPooling.contexts st' !! local_context f' = Some (SumPooling.set_private m c) ∧
    (∀ a, a ≠ local_context f' →
          SumPooling.contexts st' !! a = SumPooling.contexts st1 !! a) ∧
    SumPooling.privates st' = SumPooling.privates st1.
Proof.
  unfold SumPooling.allocate_sum_pooling_local_context.
  destruct (allocate_pooling f (local_context f) m (SumPooling.malloc_block m st))
    as [[[r f1] st1]|]; [|discriminate].
  simpl. destruct (SumPooling.contexts st1 !! local_context f1) as [c|] eqn:Hc;
    [|discriminate].
  simpl. intros [= <- <- <-]. exists st1, c. repeat split; [done|..].
  - simpl. apply lookup_insert_eq.
  - intros a Ha. simpl. by rewrite lookup_insert_ne.
Qed.

Lemma allocate_sum_pooling_stores_private_witness :
  ∃ st1 c,
    Sample.pool_reject Sample.f_pool (local_context Sample.f_pool) 64
      (SumPooling.malloc_block 64 Sample.pool_mem) =
      Some (RT_FUNCTION_ERROR_INVALID_SHAPE, Sample.f_pool, st1) ∧
    SumPooling.contexts st1 !! local_context Sample.f_pool = Some c ∧
    SumPooling.contexts
      (SumPooling.set_contexts
         {[ 32 := SumPooling.set_private 64 Sample.pool_context ]}
         (SumPooling.malloc_block 64 Sample.pool_mem))
      !! local_context Sample.f_pool = Some (SumPooling.set_private 64 c) ∧
    (∀ a, a ≠ local_context Sample.f_pool →
          SumPooling.contexts
            (SumPooling.set_contexts
               {[ 32 := SumPooling.set_private 64 Sample.pool_context ]}
               (SumPooling.malloc_block 64 Sample.pool_mem))
            !! a = SumPooling.contexts st1 !! a) ∧
    SumPooling.privates
      (SumPooling.set_contexts
         {[ 32 := SumPooling.set_private 64 Sample.pool_context ]}
         (SumPooling.malloc_block 64 Sample.pool_mem)) =
    SumPooling.privates st1.
Proof.
  apply (allocate_sum_pooling_stores_private Sample.pool_reject 64 Sample.f_pool
           Sample.pool_mem RT_FUNCTION_ERROR_INVALID_SHAPE Sample.f_pool).
  reflexivity.
Defined.

(** X16.  Release pairs with allocation.  After
    [allocate_sum_pooling_local_context], whatever it returned,
    [free_sum_pooling_local_context] hands the helper [free_pooling] the
    very pointer [malloc] had returned ([NULL] after a failed [malloc]) and
    passes its status on. *)
Theorem free_sum_pooling_after_allocate {P : Type}
    (allocate_pooling : SumPooling.allocate_pooling_t P)
    (free_pooling : SumPooling.free_pooling_t P) (m : Z)
    (f : rt_function_t) (st : SumPooling.state P)
    (ret : rt_function_error_t) (f' : rt_function_t) (st' : SumPooling.state P) :
  SumPooling.allocate_sum_pooling_local_context allocate_pooling m f st =
    Some (ret, f', st') →
  SumPooling.free_sum_pooling_local_context free_pooling f' st' =
  ('(r, st2) ← free_pooling m st'; Some (r, f', st2)).
Proof.
  unfold SumPooling.allocate_sum_pooling_local_context.
  destruct (allocate_pooling f (local_context f) m (SumPooling.malloc_block m st))
    as [[[r f1] st1]|]; [|discriminate].
  simpl. destruct (SumPooling.contexts st1 !! local_context f1) as [c|] eqn:Hc;
    [|discriminate].
  simpl. intros [= <- <- <-].
  unfold SumPooling.free_sum_pooling_local_context. simpl.
  by rewrite lookup_insert_eq.
Qed.

Lemma free_sum_pooling_after_allocate_witness :
  ∃ st',
    SumPooling.allocate_sum_pooling_local_context Sample.pool_allocate 64
      Sample.f_pool Sample.pool_mem =
      Some (RT_FUNCTION_ERROR_NOERROR, Sample.f_pool, st') ∧
    SumPooling.free_sum_pooling_local_context Sample.pool_release Sample.f_pool st' =
      ('(r, st2) ← Sample.pool_release 64 st'; Some (r, Sample.f_pool, st2)) ∧
    is_Some (SumPooling.free_sum_pooling_local_context Sample.pool_release
               Sample.f_pool st').
Proof.
  eexists. split; [reflexivity|]. split.
  - apply (free_sum_pooling_after_allocate Sample.pool_allocate Sample.pool_release
             64 Sample.f_pool Sample.pool_mem RT_FUNCTION_ERROR_NOERROR).
    reflexivity.
  - vm_compute. eauto.
Defined.

(** ** The whole life cycle *)

(** X17.  Allocate, execute, release.  For a record whose first input and first
    output are allocated over the element count [n] of the output, with an
    output buffer that does not start inside the input buffer after its
    first cell, and a block from [malloc] that was unused: when allocation
    succeeds, [exec_relu] succeeds on what allocation returned and leaves
    ReLU of the initial [input[i]] in [output[i]] for every [i] below [n],
    and the release that follows succeeds and leaves a memory that differs
    from the initial one in those float cells only. *)
Theorem relu_life_cycle (m : Z) (f : rt_function_t) (st : state)
    (f' : rt_function_t) (st' : state) (x y : rt_variable_t) :
  inputs f !! 0%nat = Some x →
  outputs f !! 0%nat = Some y →
  cells_allocated (data x) (data y) 0 (Z.to_nat (calc_shape_size (shape y))) (floats st) →
  no_forward_overlap (data x) (data y) (calc_shape_size (shape y)) →
  relu_privates st !! m = None →
  allocate_relu_local_context m f st = Some (RT_FUNCTION_ERROR_NOERROR, f', st') →
  ∃ fl,
    exec_relu f' st' = Some (RT_FUNCTION_ERROR_NOERROR, f', set_floats fl st') ∧
    (∀ i, 0 ≤ i < calc_shape_size (shape y) →
       ∃ v, floats st !! (data x + i) = Some v ∧
            fl !! (data y + i) = Some (relu v)) ∧
    (∀ a, ¬ (data y ≤ a < data y + calc_shape_size (shape y)) →
          fl !! a = floats st !! a) ∧
    free_relu_local_context f' (set_floats fl st') =
      Some (RT_FUNCTION_ERROR_NOERROR, f', set_floats fl st).
Proof.
  intros Hx Hy Hal Hov Hfresh Hrun.
  apply allocate_relu_inv in Hrun
    as [(? & _)|[(? & _)|[(? & _)|
        (x' & y' & _ & _ & Hm & Hx' & Hy' & -> & -> & [[? _]|[_ Hsz]])]]];
    try discriminate.
  assert (x' = x) as -> by congruence. assert (y' = y) as -> by congruence.
  destruct (elementwise_total relu _ _ _ _ _ Hal) as [fl Hfl].
  exists fl. repeat split.
  - apply exec_relu_Some. eexists _, fl. simpl. rewrite lookup_insert_eq.
    repeat split. unfold for_loop. simpl. exact Hfl.
  - intros i Hi.
    apply (elementwise_values relu _ _ _ _ _ _ Hfl);
      [by apply no_forward_overlap_no_clobber | lia].
  - intros a Ha. apply (elementwise_frame relu _ _ _ _ _ _ Hfl). lia.
  - apply free_relu_Some. repeat split. right. simpl.
    rewrite lookup_insert_eq. repeat split; [done|eauto|].
    unfold set_relu_privates, set_floats. simpl.
    by rewrite delete_insert_id.
Qed.

Lemma relu_life_cycle_witness :
  ∃ fl,
    exec_relu (set_local_context 64 Sample.f_relu) (Sample.ready_mem Sample.p_relu) =
      Some (RT_FUNCTION_ERROR_NOERROR, set_local_context 64 Sample.f_relu,
            set_floats fl (Sample.ready_mem Sample.p_relu)) ∧
    (∀ i, 0 ≤ i < calc_shape_size (shape Sample.y4) →
       ∃ v, floats Sample.mem !! (data Sample.x22 + i) = Some v ∧
            fl !! (data Sample.y4 + i) = Some (relu v)) ∧
    (∀ a, ¬ (data Sample.y4 ≤ a < data Sample.y4 + calc_shape_size (shape Sample.y4)) →
          fl !! a = floats Sample.mem !! a) ∧
    free_relu_local_context (set_local_context 64 Sample.f_relu)
      (set_floats fl (Sample.ready_mem Sample.p_relu)) =
      Some (RT_FUNCTION_ERROR_NOERROR, set_local_context 64 Sample.f_relu,
            set_floats fl Sample.mem).
Proof.
  apply (relu_life_cycle 64 Sample.f_relu Sample.mem
           (set_local_context 64 Sample.f_relu) (Sample.ready_mem Sample.p_relu)
           Sample.x22 Sample.y4).
  - reflexivity.
  - reflexivity.
  - apply cells_allocatedb_spec. vm_compute. reflexivity.
  - right. vm_compute. discriminate.
  - reflexivity.
  - reflexivity.
Defined.
